(** * Verification of the recursive binary search tree and the Bell numbers

    A shallow embedding of
    - [data_structures/binary_tree/binary_search_tree_recursive.py]
    - [maths/bell_numbers.py]
    and the proofs of their specified properties.

    Python integers are unbounded, so keys and table entries are [Z].
    A Python exception is a [Raise] in the error monad [result]. *)

From Stdlib Require Import ZArith Lia Sorted.
From stdpp Require Import base tactics option list sets sorting.

Local Open Scope Z_scope.

(** ** Exceptions *)

(** The exceptions the two modules can raise. *)
Inductive exn : Type :=
| AttributeError   (* attribute access on [None] *)
| IndexError       (* list index out of range *)
| ValueError.      (* explicit [raise ValueError] *)

Inductive result (A : Type) : Type :=
| Ok (a : A)
| Raise (e : exn).

Arguments Ok {A} a.
Arguments Raise {A} e.

Definition bind {A B : Type} (m : result A) (k : A → result B) : result B :=
  match m with
  | Ok a => k a
  | Raise e => Raise e
  end.

Notation "x <- m ;; k" := (bind m (fun x => k))
  (at level 100, m at next level, right associativity).

(** ** The binary search tree *)

Module BinarySearchTree.

(** A Python object is identified by its address.  [class Node] has the
    fields [data], [left], [right]; a child is a [Node] or [None].  The tree
    owns its nodes (no node has two parents), so the heap reachable from a
    root is a tree of addressed nodes. *)
Definition addr := nat.

Inductive tree : Type :=
| None_
| Node (a : addr) (data : Z) (left right : tree).

Arguments Node a%_nat data%_Z left right.

(** The allocator: the next free address.  [Node(data)] takes it. *)
Definition alloc := nat.

Definition new_Node (data : Z) (h : alloc) : tree * alloc :=
  (Node h data None_ None_, S h).

(** [insert(self, root, data)].  The assignment [root.left = ...] updates the
    node at [root]'s address in place; [return root] returns that node. *)
Fixpoint insert (root : tree) (data : Z) (h : alloc) : tree * alloc :=
  match root with
  | None_ => new_Node data h
  | Node a d l r =>
      if data <? d then
        let '(l', h') := insert l data h in (Node a d l' r, h')
      else if data >? d then
        let '(r', h') := insert r data h in (Node a d l r', h')
      else (Node a d l r, h)
  end.

Arguments insert root data%_Z h%_nat.

(** [search(self, root, key)]. *)
Fixpoint search (root : tree) (key : Z) : bool :=
  match root with
  | None_ => false
  | Node _ d l r =>
      if key =? d then true
      else if key <? d then search l key
      else search r key
  end.

(** [inorder(self, root)] prints the values; the model is the sequence of
    values printed. *)
Fixpoint inorder (root : tree) : list Z :=
  match root with
  | None_ => []
  | Node _ d l r => inorder l ++ d :: inorder r
  end.

(** [_min_value(self, node)]: [current.left] on [None] raises
    [AttributeError]; the loop follows [left] while it is a node. *)
Fixpoint _min_value (node : tree) : result Z :=
  match node with
  | None_ => Raise AttributeError
  | Node _ d l _ =>
      match l with
      | None_ => Ok d
      | Node _ _ _ _ => _min_value l
      end
  end.

(** [delete(self, root, key)]. *)
Fixpoint delete (root : tree) (key : Z) : result tree :=
  match root with
  | None_ => Ok None_
  | Node a d l r =>
      if key <? d then
        l' <- delete l key ;; Ok (Node a d l' r)
      else if key >? d then
        r' <- delete r key ;; Ok (Node a d l r')
      else
        match l with
        | None_ => Ok r
        | Node _ _ _ _ =>
            match r with
            | None_ => Ok l
            | Node _ _ _ _ =>
                m <- _min_value r ;;
                r' <- delete r m ;;
                Ok (Node a m l r')
            end
        end
  end.

(** *** Vocabulary of the specification *)

(** The ordering invariant of the data model: at every node the values of
    the left subtree are strictly smaller and those of the right subtree
    strictly greater than the node's value. *)
Fixpoint bst (t : tree) : Prop :=
  match t with
  | None_ => True
  | Node _ d l r =>
      Forall (λ x, x < d) (inorder l) ∧ Forall (λ x, d < x) (inorder r) ∧
      bst l ∧ bst r
  end.

(** The structural shape of a tree: the tree without its values and
    addresses. *)
Inductive shape : Type :=
| SNone
| SNode (l r : shape).

Fixpoint shape_of (t : tree) : shape :=
  match t with
  | None_ => SNone
  | Node _ _ l r => SNode (shape_of l) (shape_of r)
  end.

(** The address of the node a reference points to ([None] has none). *)
Definition address (t : tree) : option addr :=
  match t with
  | None_ => None
  | Node a _ _ _ => Some a
  end.

(** A client of the class: a sequence of [root = bst.insert(root, v)] and
    [root = bst.delete(root, v)] statements. *)
Inductive op : Type :=
| Insert (v : Z)
| Delete (v : Z).

(** The client's state: its [root] variable and the allocator. *)
Definition state : Type := tree * alloc.

Definition empty (h : alloc) : state := (None_, h).

Arguments empty h%_nat.

Definition step (o : op) (s : state) : result state :=
  match o with
  | Insert v => Ok (insert s.1 v s.2)
  | Delete v => root' <- delete s.1 v ;; Ok (root', s.2)
  end.

Fixpoint run (ops : list op) (s : state) : result state :=
  match ops with
  | [] => Ok s
  | o :: ops' => s' <- step o s ;; run ops' s'
  end.

(** [v] was inserted and not deleted afterwards. *)
Definition inserted_not_deleted (ops : list op) (v : Z) : Prop :=
  ∃ pre post, ops = pre ++ Insert v :: post ∧ Delete v ∉ post.

(** Membership after [ops] in the set of values the operations describe,
    starting from membership [b]. *)
Fixpoint member_after (ops : list op) (v : Z) (b : bool) : bool :=
  match ops with
  | [] => b
  | Insert x :: ops' => member_after ops' v (b || (v =? x))
  | Delete x :: ops' => member_after ops' v (b && negb (v =? x))
  end.

(** The values of the insert operations. *)
Definition inserted_values (ops : list op) : list Z :=
  omap (λ o, match o with Insert v => Some v | Delete _ => None end) ops.

(** The number of distinct values among the inserted ones. *)
Definition distinct_inserted (ops : list op) : nat :=
  length (remove_dups (inserted_values ops)).

(** The value [v] is in a node of the tree. *)
Definition present (t : tree) (v : Z) : bool := bool_decide (v ∈ inorder t).

(** The number of delete operations whose key is in the tree when the
    operation runs, counted along the run from [s]. *)
Fixpoint present_deletes (ops : list op) (s : state) : result nat :=
  match ops with
  | [] => Ok 0%nat
  | o :: ops' =>
      s' <- step o s ;;
      n <- present_deletes ops' s' ;;
      Ok (match o with
          | Delete v => if present s.1 v then S n else n
          | Insert _ => n
          end)
  end.

(** The number of insert operations whose value is not in the tree when the
    operation runs, counted along the run from [s]. *)
Fixpoint fresh_inserts (ops : list op) (s : state) : result nat :=
  match ops with
  | [] => Ok 0%nat
  | o :: ops' =>
      s' <- step o s ;;
      n <- fresh_inserts ops' s' ;;
      Ok (match o with
          | Insert v => if present s.1 v then n else S n
          | Delete _ => n
          end)
  end.

(** The size property as the specification words it. *)
Definition size_as_stated (ops : list op) : Prop :=
  ∀ h root h' d,
    run ops (empty h) = Ok (root, h') →
    present_deletes ops (empty h) = Ok d →
    Z.of_nat (length (inorder root)) =
    Z.of_nat (distinct_inserted ops) - Z.of_nat d.

(** The tree the demonstration builds:
<<
        50
       /  \
     30    70
    /  \   / \
   20  40 60  80
>> *)
Definition demo_tree : tree :=
  Node 0 50
    (Node 1 30 (Node 2 20 None_ None_) (Node 3 40 None_ None_))
    (Node 4 70 (Node 5 60 None_ None_) (Node 6 80 None_ None_)).

(** [binary_search_tree_example()]: what the demonstration prints, and the
    value of its [root] variable at the end. *)
Record transcript : Type := Transcript {
  inorder_built : list Z;
  search_40 : bool;
  search_90 : bool;
  inorder_del_20 : list Z;
  inorder_del_30 : list Z;
  inorder_del_50 : list Z;
  final_root : tree
}.

Definition binary_search_tree_example : result transcript :=
  let root := None_ in
  let data := [50; 30; 20; 40; 70; 60; 80] in
  let '(root, _) :=
    foldl (λ '(root, h) value, insert root value h) (root, 0%nat) data in
  let out0 := inorder root in
  let s40 := search root 40 in
  let s90 := search root 90 in
  root <- delete root 20 ;;
  let out1 := inorder root in
  root <- delete root 30 ;;
  let out2 := inorder root in
  root <- delete root 50 ;;
  let out3 := inorder root in
  Ok (Transcript out0 s40 s90 out1 out2 out3 root).

(** The addresses of the nodes of a tree, in inorder. *)
Fixpoint nodes (t : tree) : list addr :=
  match t with
  | None_ => []
  | Node a _ l r => nodes l ++ a :: nodes r
  end.

End BinarySearchTree.

(** ** The Bell numbers *)

Module BellNumbers.

(** *** Python lists *)

(** The position an index denotes in a list: a negative index counts from
    the end, and an index outside the list raises [IndexError]. *)
Definition position {A} (l : list A) (i : Z) : result nat :=
  let n := Z.of_nat (length l) in
  let i' := if i <? 0 then i + n else i in
  if (0 <=? i') && (i' <? n) then Ok (Z.to_nat i') else Raise IndexError.

(** [l[i]]. *)
Definition getitem {A} (l : list A) (i : Z) : result A :=
  k <- position l i ;;
  match l !! k with
  | Some x => Ok x
  | None => Raise IndexError
  end.

(** [l[i] = x]. *)
Definition setitem {A} (l : list A) (i : Z) (x : A) : result (list A) :=
  k <- position l i ;; Ok (<[k:=x]> l).

(** A table is a list of rows.  The comprehension that builds it makes a
    new list for every row, so no two rows are the same object and an
    assignment to [t[i][j]] changes row [i] only. *)
Abbreviation table := (list (list Z)).

(** [t[i][j]]. *)
Definition get2 (t : table) (i j : Z) : result Z :=
  row <- getitem t i ;; getitem row j.

(** [t[i][j] = x]: the row object [t[i]] is updated in place. *)
Definition set2 (t : table) (i j : Z) (x : Z) : result table :=
  row <- getitem t i ;;
  row' <- setitem row j x ;;
  setitem t i row'.

(** [range(lo, hi)]. *)
Definition range (lo hi : Z) : list Z := seqZ lo (hi - lo).

(** [sum(l)]. *)
Definition sum (l : list Z) : Z := foldl Z.add 0 l.

(** [for x in xs: s = body(x, s)], stopping at the first exception. *)
Fixpoint for_ {S : Type} (xs : list Z) (body : Z → S → result S) (s : S)
  : result S :=
  match xs with
  | [] => Ok s
  | x :: xs' => s' <- body x s ;; for_ xs' body s'
  end.

(** [[[0 for _ in range(n + 1)] for _ in range(n + 1)]]. *)
Definition zeros (n : Z) : table :=
  (λ _, (λ _, 0) <$> range 0 (n + 1)) <$> range 0 (n + 1).

(** *** The two functions *)

(** [bell_number(n)] on an [int] [n], for which the [isinstance] test
    passes; [bell_number_of] below has the whole guard. *)
Definition bell_number (n : Z) : result Z :=
  if n <? 0 then Raise ValueError
  else if n =? 0 then Ok 1
  else
    let bell := zeros n in
    bell <- set2 bell 0 0 1 ;;
    bell <-
      for_ (range 1 (n + 1)) (λ i bell,
        v <- get2 bell (i - 1) (i - 1) ;;
        bell <- set2 bell i 0 v ;;
        for_ (range 1 (i + 1)) (λ j bell,
          a <- get2 bell (i - 1) (j - 1) ;;
          b <- get2 bell i (j - 1) ;;
          set2 bell i j (a + b)) bell) bell ;;
    get2 bell n 0.

(** [bell_number_sum(n)]. *)
Definition bell_number_sum (n : Z) : result Z :=
  if n <? 0 then Raise ValueError
  else if n =? 0 then Ok 1
  else
    let stirling := zeros n in
    stirling <-
      for_ (range 0 (n + 1)) (λ i stirling,
        stirling <- set2 stirling i 0 0 ;;
        set2 stirling 0 i 0) stirling ;;
    stirling <- set2 stirling 0 0 1 ;;
    stirling <-
      for_ (range 1 (n + 1)) (λ i stirling,
        for_ (range 1 (i + 1)) (λ j stirling,
          a <- get2 stirling (i - 1) j ;;
          b <- get2 stirling (i - 1) (j - 1) ;;
          set2 stirling i j (j * a + b)) stirling) stirling ;;
    row <- getitem stirling n ;;
    Ok (sum row).

(** *** Vocabulary of the proof *)

(** The entry of a table at row [i] and column [j]. *)
Definition ent (t : table) (i j : nat) : Z :=
  match t !! i with
  | Some row => default 0 (row !! j)
  | None => 0
  end.

(** A square table of side [m]. *)
Definition square (m : nat) (t : table) : Prop :=
  length t = m ∧ Forall (λ row, length row = m) t.

(** A sequence [c] of integers stands for the polynomial
    [c 0 * x^(0) + c 1 * x^(1) + c 2 * x^(2) + ...] written over the falling
    factorials [x^(k) = x (x - 1) ... (x - k + 1)]. *)
Definition coeffs : Type := nat → Z.

(** The constant polynomial 1. *)
Definition one : coeffs := λ k, match k with O => 1 | S _ => 0 end.

(** Multiplication by [x]: [x * x^(k) = x^(k+1) + k * x^(k)]. *)
Definition mul_x (c : coeffs) : coeffs :=
  λ k, match k with O => 0 | S k' => c k' + Z.of_nat k * c k end.

(** Multiplication by [x + 1]. *)
Definition mul_x1 (c : coeffs) : coeffs := λ k, mul_x c k + c k.

(** Substitution of [x + 1] for [x]: [(x+1)^(k) = x^(k) + k * x^(k-1)]. *)
Definition shift (c : coeffs) : coeffs :=
  λ k, c k + Z.of_nat (S k) * c (S k).

(** [c 0 + ... + c n]. *)
Fixpoint sumto (n : nat) (c : coeffs) : Z :=
  match n with
  | O => c O
  | S n' => sumto n' c + c n
  end.

(** Every coefficient after the [n]th is zero. *)
Definition below (n : nat) (c : coeffs) : Prop := ∀ k, (n < k)%nat → c k = 0.

(** The Stirling number of the second kind [S(i, j)]: the [j]th coefficient
    of [x^i]. *)
Definition stirling2 (i j : nat) : Z := Nat.iter i mul_x one j.

(** The entry [(i, j)] of the Bell triangle, for [j <= i]: the sum of the
    coefficients of [x^(i-j) * (x+1)^j]. *)
Definition triangle (i j : nat) : Z :=
  sumto i (Nat.iter (i - j) mul_x (Nat.iter j mul_x1 one)).

(** The table [t] is square of side [m] and holds [G i j] in every cell
    [(i, j)] of the region [D]. *)
Definition expect (m : nat) (D : nat → nat → Prop) (G : nat → nat → Z)
    (t : table) : Prop :=
  square m t ∧
  ∀ i j, (i < m)%nat → (j < m)%nat → D i j → ent t i j = G i j.

(** The nested loops write the cell [(i', j')] before they reach the cell
    [(i, j)]. *)
Definition before (i j : Z) (i' j' : nat) : Prop :=
  Z.of_nat i' < i ∨ (Z.of_nat i' = i ∧ Z.of_nat j' < j).

#[global] Instance before_dec i j i' j' : Decision (before i j i' j').
Proof. unfold before. apply _. Defined.

(** The cells of the Bell triangle written before [(i, j)]. *)
Definition bell_done (i j : Z) (i' j' : nat) : Prop :=
  (j' ≤ i')%nat ∧ before i j i' j'.

(** The content of the Stirling table when the loops reach [(i, j)]. *)
Definition stirling_at (i j : Z) (i' j' : nat) : Z :=
  if decide (before i j i' j') then stirling2 i' j' else 0.

(** The whole table. *)
Definition all_cells (i' j' : nat) : Prop := True.

(** [bell_numbers_list(n)]. *)
Definition bell_numbers_list (n : Z) : result (list Z) :=
  if n <? 0 then Raise ValueError
  else if n =? 0 then Ok [1]
  else
    let bell_list := [1] in
    bell_list <-
      for_ (range 1 (n + 1)) (λ i bell_list,
        b <- bell_number i ;;
        Ok (bell_list ++ [b])) bell_list ;;
    Ok bell_list.

(** The argument of the three functions is any Python value: an [int]
    (a [bool] counts as the [int] it is) or a value of another type, such as
    the [float] 2.5 of the doctests. *)
Inductive object : Type :=
| Int (n : Z)
| NonInt.

(** [isinstance(n, int)]. *)
Definition isinstance_int (o : object) : bool :=
  match o with
  | Int _ => true
  | NonInt => false
  end.

(** The guard that opens each function:
    [if not isinstance(n, int) or n < 0: raise ValueError].  The [or] does
    not evaluate [n < 0] when the first test holds. *)
Definition check_argument (o : object) : result Z :=
  match o with
  | NonInt => Raise ValueError
  | Int n => if n <? 0 then Raise ValueError else Ok n
  end.

(** The three functions on an argument of any type: the guard, then the
    function on the integer, as modelled above. *)
Definition bell_number_of (o : object) : result Z :=
  n <- check_argument o ;; bell_number n.

Definition bell_number_sum_of (o : object) : result Z :=
  n <- check_argument o ;; bell_number_sum n.

Definition bell_numbers_list_of (o : object) : result (list Z) :=
  n <- check_argument o ;; bell_numbers_list n.

(** The binomial coefficient [n] choose [k], by Pascal's rule. *)
Fixpoint binom (n k : nat) : Z :=
  match n, k with
  | _, O => 1
  | O, S _ => 0
  | S n', S k' => binom n' k' + binom n' k
  end.

End BellNumbers.

(** * Proofs *)

Lemma bind_Ok {A B} (m : result A) (k : A → result B) b :
  bind m k = Ok b ↔ ∃ a, m = Ok a ∧ k a = Ok b.
Proof.
  destruct m as [a|e]; simpl; split.
  - eauto.
  - by intros (a' & [= <-] & H).
  - discriminate.
  - by intros (a' & [=] & _).
Qed.

(** Splits an equation [x <- m ;; k = Ok b] in the context. *)
Ltac inv_bind H :=
  let a := fresh "a" in
  let Ha := fresh "Hm" in
  apply bind_Ok in H as (a & Ha & H).

Module BinarySearchTreeProofs.
Import BinarySearchTree.

(** The three-way comparison [<], [>], else of [insert] and [delete]. *)
Ltac cmp x y :=
  destruct (Z.ltb_spec x y); [| destruct (Z.gtb_spec x y)].

(** ** Insertion *)

Lemma insert_elem_of t v h x :
  x ∈ inorder (insert t v h).1 ↔ x = v ∨ x ∈ inorder t.
Proof.
  induction t as [|a d l IHl r IHr]; simpl.
  - rewrite elem_of_cons. tauto.
  - cmp v d.
    + destruct (insert l v h) as [l' h']; simpl in *.
      rewrite !elem_of_app, IHl. tauto.
    + destruct (insert r v h) as [r' h']; simpl in *.
      rewrite !elem_of_app, !elem_of_cons, IHr. tauto.
    + simpl. assert (v = d) as -> by lia.
      rewrite !elem_of_app, !elem_of_cons. tauto.
Qed.

Lemma insert_bst t v h : bst t → bst (insert t v h).1.
Proof.
  induction t as [|a d l IHl r IHr]; simpl.
  - by repeat split.
  - intros (Hl & Hr & Bl & Br). cmp v d.
    + pose proof (insert_elem_of l v h) as Hin.
      destruct (insert l v h) as [l' h'] eqn:E; simpl in *.
      repeat split; auto. apply Forall_forall. intros x [->|Hx]%Hin; [lia|].
      by eapply Forall_forall in Hl.
    + pose proof (insert_elem_of r v h) as Hin.
      destruct (insert r v h) as [r' h'] eqn:E; simpl in *.
      repeat split; auto. apply Forall_forall. intros x [->|Hx]%Hin; [lia|].
      by eapply Forall_forall in Hr.
    + by repeat split.
Qed.

(** ** Order and search *)

Lemma bst_sorted t : bst t → StronglySorted Z.lt (inorder t).
Proof.
  induction t as [|a d l IHl r IHr]; simpl.
  - constructor.
  - intros (Hl & Hr & Bl & Br). apply StronglySorted_app. split_and!; auto.
    + intros x y Hx [->|Hy]%elem_of_cons.
      * by eapply Forall_forall in Hl.
      * eapply Forall_forall in Hl, Hr; eauto. lia.
    + apply StronglySorted_cons. auto.
Qed.

Lemma search_elem_of t v : bst t → search t v = true ↔ v ∈ inorder t.
Proof.
  induction t as [|a d l IHl r IHr]; simpl.
  - intros _. rewrite elem_of_nil. split; [discriminate|tauto].
  - intros (Hl & Hr & Bl & Br).
    rewrite elem_of_app, elem_of_cons.
    destruct (Z.eqb_spec v d) as [->|Hne]; [tauto|].
    destruct (Z.ltb_spec v d).
    + rewrite IHl by done. split; [auto|]. intros [?|[?|Hx]]; [done|done|].
      eapply Forall_forall in Hr; eauto. lia.
    + rewrite IHr by done. split; [auto|]. intros [Hx|[?|?]]; [|done|done].
      eapply Forall_forall in Hl; eauto. lia.
Qed.

Lemma search_false t v : bst t → search t v = false ↔ v ∉ inorder t.
Proof.
  intros B. rewrite <-search_elem_of by done. by destruct (search t v).
Qed.

(** ** The minimum of a subtree *)

Lemma min_value_head t :
  t ≠ None_ → ∃ m rest, _min_value t = Ok m ∧ inorder t = m :: rest.
Proof.
  induction t as [|a d l IHl r _]; [done|]. intros _. simpl.
  destruct l as [|a' d' l' r'].
  - by exists d, (inorder r).
  - destruct IHl as (m & rest & -> & Hrest); [done|].
    exists m, (rest ++ d :: inorder r). by rewrite Hrest.
Qed.

Lemma min_value_least t m :
  bst t → _min_value t = Ok m →
  m ∈ inorder t ∧ ∀ x, x ∈ inorder t → m ≤ x.
Proof.
  intros B Hm. destruct t as [|a d l r]; [done|].
  destruct (min_value_head (Node a d l r)) as (m' & rest & Hm' & Hin); [done|].
  assert (m' = m) as -> by congruence.
  apply bst_sorted in B. rewrite Hin in *.
  apply StronglySorted_cons in B as [Hlt _]. split; [left|].
  intros x [->|Hx]%elem_of_cons; [lia|].
  eapply Forall_forall in Hlt; eauto. lia.
Qed.

(** ** Deletion *)

(** The five paths through [delete] at a node. *)
Lemma delete_Node_cases a d l r k t' :
  delete (Node a d l r) k = Ok t' →
  (k < d ∧ ∃ l', delete l k = Ok l' ∧ t' = Node a d l' r) ∨
  (d < k ∧ ∃ r', delete r k = Ok r' ∧ t' = Node a d l r') ∨
  (k = d ∧ l = None_ ∧ t' = r) ∨
  (k = d ∧ l ≠ None_ ∧ r = None_ ∧ t' = l) ∨
  (k = d ∧ l ≠ None_ ∧ r ≠ None_ ∧
   ∃ m r', _min_value r = Ok m ∧ delete r m = Ok r' ∧ t' = Node a m l r').
Proof.
  simpl. cmp k d.
  - intros H'. inv_bind H'. left. split; [done|]. exists a0. by inversion H'.
  - intros H'. inv_bind H'. right; left. split; [lia|]. exists a0.
    by inversion H'.
  - assert (k = d) by lia. destruct l as [|al dl ll rl].
    + intros [= <-]. tauto.
    + destruct r as [|ar dr lr rr].
      * intros [= <-]. right; right; right; left. done.
      * intros H'. inv_bind H'. inv_bind H'. do 4 right.
        split_and!; [done..|]. exists a0, a1. by inversion H'.
Qed.

Lemma delete_total t k : ∃ t', delete t k = Ok t'.
Proof.
  revert k. induction t as [|a d l IHl r IHr]; intros k; simpl; [eauto|].
  cmp k d.
  - destruct (IHl k) as [l' ->]. simpl. eauto.
  - destruct (IHr k) as [r' ->]. simpl. eauto.
  - destruct l as [|al dl ll rl]; [eauto|].
    destruct r as [|ar dr lr rr]; [eauto|].
    destruct (min_value_head (Node ar dr lr rr)) as (m & rest & -> & _);
      [done|].
    cbn [bind]. destruct (IHr m) as [r' ->]. simpl. eauto.
Qed.

Lemma delete_elem_of t k t' x :
  bst t → delete t k = Ok t' →
  x ∈ inorder t' ↔ x ∈ inorder t ∧ x ≠ k.
Proof.
  revert k t'. induction t as [|a d l IHl r IHr]; intros k t' B Hd.
  - injection Hd as <-. simpl. rewrite elem_of_nil. tauto.
  - destruct B as (Hl & Hr & Bl & Br).
    rewrite Forall_forall in Hl, Hr.
    apply delete_Node_cases in Hd
      as [(Hk & l' & Hl' & ->)|[(Hk & r' & Hr' & ->)|[(-> & -> & ->)|
          [(-> & _ & -> & ->)|(-> & _ & _ & m & r' & Hm & Hr' & ->)]]]];
      simpl; rewrite ?elem_of_app, ?elem_of_cons, ?elem_of_nil.
    + rewrite (IHl _ _ Bl Hl'). specialize (Hl x). specialize (Hr x).
      intuition lia.
    + rewrite (IHr _ _ Br Hr'). specialize (Hl x). specialize (Hr x).
      intuition lia.
    + specialize (Hr x). intuition lia.
    + specialize (Hl x). intuition lia.
    + rewrite (IHr _ _ Br Hr').
      destruct (min_value_least _ _ Br Hm) as [Hin Hle].
      specialize (Hl x). pose proof (Hr x) as Hrx. pose proof (Hr m Hin).
      destruct (decide (x = m)) as [->|]; intuition lia.
Qed.

Lemma delete_bst t k t' : bst t → delete t k = Ok t' → bst t'.
Proof.
  revert k t'. induction t as [|a d l IHl r IHr]; intros k t' B Hd.
  - by injection Hd as <-.
  - pose proof B as (Hl & Hr & Bl & Br).
    apply delete_Node_cases in Hd
      as [(Hk & l' & Hl' & ->)|[(Hk & r' & Hr' & ->)|[(-> & -> & ->)|
          [(-> & _ & -> & ->)|(-> & _ & _ & m & r' & Hm & Hr' & ->)]]]];
      try done.
    + simpl. split_and!; eauto. apply Forall_forall. intros x Hx.
      apply (delete_elem_of _ _ _ _ Bl Hl') in Hx as [Hx _].
      by eapply Forall_forall in Hl.
    + simpl. split_and!; eauto. apply Forall_forall. intros x Hx.
      apply (delete_elem_of _ _ _ _ Br Hr') in Hx as [Hx _].
      by eapply Forall_forall in Hr.
    + destruct (min_value_least _ _ Br Hm) as [Hin Hle].
      rewrite Forall_forall in Hl, Hr.
      simpl. split_and!; eauto; apply Forall_forall; intros x Hx.
      * apply Hl in Hx. apply Hr in Hin. lia.
      * apply (delete_elem_of _ _ _ _ Br Hr') in Hx as [Hx Hne].
        apply Hle in Hx. lia.
Qed.

Lemma delete_absent t v : v ∉ inorder t → delete t v = Ok t.
Proof.
  induction t as [|a d l IHl r IHr]; simpl; [done|].
  rewrite elem_of_app, elem_of_cons. intros Hv. cmp v d.
  - rewrite IHl by tauto. done.
  - rewrite IHr by tauto. done.
  - exfalso. apply Hv. right; left. lia.
Qed.

Lemma insert_present t v h : bst t → v ∈ inorder t → insert t v h = (t, h).
Proof.
  induction t as [|a d l IHl r IHr]; simpl.
  - intros _ Hv. by apply elem_of_nil in Hv.
  - intros (Hl & Hr & Bl & Br). rewrite Forall_forall in Hl, Hr.
    rewrite elem_of_app, elem_of_cons. intros Hv. cmp v d; [| |done].
    + rewrite IHl; [done..|]. destruct Hv as [?|[?|Hv%Hr]]; [done|lia..].
    + rewrite IHr; [done..|]. destruct Hv as [Hv%Hl|[?|?]]; [lia..|done].
Qed.

(** ** Search after an update *)

Lemma search_insert t x h v :
  bst t → search (insert t x h).1 v = search t v || (v =? x).
Proof.
  intros B. apply Bool.eq_iff_eq_true.
  rewrite Bool.orb_true_iff, !search_elem_of, insert_elem_of, Z.eqb_eq
    by auto using insert_bst.
  tauto.
Qed.

Lemma search_delete t k t' v :
  bst t → delete t k = Ok t' → search t' v = search t v && negb (v =? k).
Proof.
  intros B Hd. apply Bool.eq_iff_eq_true.
  rewrite Bool.andb_true_iff, Bool.negb_true_iff, Z.eqb_neq,
    !search_elem_of, (delete_elem_of _ _ _ _ B Hd) by eauto using delete_bst.
  tauto.
Qed.

(** ** Sizes *)

Lemma present_search t v : bst t → present t v = search t v.
Proof.
  intros B. apply Bool.eq_iff_eq_true. unfold present.
  by rewrite bool_decide_eq_true, search_elem_of.
Qed.

Lemma insert_length t v h :
  bst t →
  length (inorder (insert t v h).1) =
  (length (inorder t) + if search t v then 0 else 1)%nat.
Proof.
  induction t as [|a d l IHl r IHr]; simpl; [done|].
  intros (Hl & Hr & Bl & Br). cmp v d.
  - destruct (Z.eqb_spec v d); [lia|]. specialize (IHl Bl).
    destruct (insert l v h) as [l' h']; simpl in *.
    rewrite !length_app, IHl. simpl. lia.
  - destruct (Z.eqb_spec v d); [lia|]. destruct (Z.ltb_spec v d); [lia|].
    specialize (IHr Br). destruct (insert r v h) as [r' h']; simpl in *.
    rewrite !length_app. simpl. rewrite IHr. lia.
  - destruct (Z.eqb_spec v d); [|lia]. simpl. lia.
Qed.

Lemma delete_length t k t' :
  bst t → delete t k = Ok t' →
  (length (inorder t') + if search t k then 1 else 0)%nat =
  length (inorder t).
Proof.
  revert k t'. induction t as [|a d l IHl r IHr]; intros k t' B Hd.
  - by injection Hd as <-.
  - pose proof B as (Hl & Hr & Bl & Br).
    apply delete_Node_cases in Hd
      as [(Hk & l' & Hl' & ->)|[(Hk & r' & Hr' & ->)|[(-> & -> & ->)|
          [(-> & _ & -> & ->)|(-> & _ & _ & m & r' & Hm & Hr' & ->)]]]];
      simpl; rewrite ?Z.eqb_refl, ?length_app; simpl.
    + destruct (Z.eqb_spec k d); [lia|]. destruct (Z.ltb_spec k d); [|lia].
      specialize (IHl _ _ Bl Hl'). lia.
    + destruct (Z.eqb_spec k d); [lia|]. destruct (Z.ltb_spec k d); [lia|].
      specialize (IHr _ _ Br Hr'). lia.
    + lia.
    + lia.
    + specialize (IHr _ _ Br Hr').
      destruct (min_value_least _ _ Br Hm) as [Hin _].
      apply search_elem_of in Hin; [|done]. rewrite Hin in IHr. lia.
Qed.

(** ** Runs of operations *)

Lemma step_bst o s : bst s.1 → ∃ s', step o s = Ok s' ∧ bst s'.1.
Proof.
  intros B. destruct o as [v|v]; simpl.
  - eauto using insert_bst.
  - destruct (delete_total s.1 v) as [t' Hd]. rewrite Hd. simpl.
    eauto using delete_bst.
Qed.

Lemma run_bst ops s : bst s.1 → ∃ s', run ops s = Ok s' ∧ bst s'.1.
Proof.
  revert s. induction ops as [|o ops IH]; intros s B; simpl; [eauto|].
  destruct (step_bst o s B) as (s1 & -> & B1). simpl. auto.
Qed.

Lemma run_member ops s s' v :
  bst s.1 → run ops s = Ok s' →
  search s'.1 v = member_after ops v (search s.1 v).
Proof.
  revert s. induction ops as [|o ops IH]; intros s B Hr; simpl in *.
  - by injection Hr as <-.
  - inv_bind Hr. destruct (step_bst o s B) as (s1 & Hs1 & B1).
    assert (a = s1) as -> by congruence. rewrite (IH _ B1 Hr).
    destruct o as [x|x]; simpl in *.
    + injection Hs1 as <-. by rewrite search_insert.
    + inv_bind Hs1. injection Hs1 as <-. simpl.
      by erewrite search_delete.
Qed.

Lemma member_after_no_delete post v :
  Delete v ∉ post → member_after post v true = true.
Proof.
  induction post as [|[x|x] post IH]; simpl; [done|..];
    rewrite not_elem_of_cons; intros [Hne Hpost]; [auto|].
  destruct (Z.eqb_spec v x) as [->|]; [done|]. auto.
Qed.

Lemma member_after_live ops v b :
  inserted_not_deleted ops v → member_after ops v b = true.
Proof.
  intros (pre & post & -> & Hpost). revert b.
  induction pre as [|[x|x] pre IH]; intros b; simpl; [|done..].
  rewrite Z.eqb_refl, Bool.orb_true_r. by apply member_after_no_delete.
Qed.

Lemma member_after_never ops v :
  Insert v ∉ ops → member_after ops v false = false.
Proof.
  induction ops as [|[x|x] ops IH]; simpl; [done|..];
    rewrite not_elem_of_cons; intros [Hne Hops]; [|auto].
  destruct (Z.eqb_spec v x) as [->|]; [done|]. auto.
Qed.

Lemma run_size ops s :
  bst s.1 →
  ∃ s' d f,
    run ops s = Ok s' ∧ present_deletes ops s = Ok d ∧
    fresh_inserts ops s = Ok f ∧
    (length (inorder s'.1) + d = length (inorder s.1) + f)%nat.
Proof.
  revert s. induction ops as [|o ops IH]; intros s B; simpl.
  - exists s, 0%nat, 0%nat. split_and!; [done..|lia].
  - destruct (step_bst o s B) as (s1 & Hs1 & B1). rewrite Hs1. simpl.
    destruct (IH s1 B1) as (s' & d & f & -> & -> & -> & Hlen). simpl.
    eexists _, _, _. split_and!; [done..|].
    destruct o as [x|x]; simpl in *.
    + injection Hs1 as <-. rewrite insert_length in Hlen by done.
      rewrite present_search by done. destruct (search s.1 x); lia.
    + inv_bind Hs1. injection Hs1 as <-. simpl in *.
      pose proof (delete_length _ _ _ B Hm).
      rewrite present_search by done. destruct (search s.1 x); lia.
Qed.

(** ** The specified properties *)

Lemma demo_tree_bst : bst demo_tree.
Proof. simpl. repeat first [split | constructor | lia]. Defined.

(** C1. Ordering invariant: every finite sequence of inserts and deletes
    run from the empty tree ends in a tree whose inorder traversal is
    strictly ascending. *)
Theorem inorder_strictly_ascending (ops : list op) (h : alloc) :
  ∃ root h',
    run ops (empty h) = Ok (root, h') ∧
    StronglySorted Z.lt (inorder root).
Proof.
  destruct (run_bst ops (empty h)) as ([root h'] & Hrun & B); [done|].
  exists root, h'. split; [done|]. by apply bst_sorted.
Qed.

(** C2. Search correctness: after any sequence of inserts and deletes run
    from the empty tree, [search] finds every value that was inserted and
    not deleted afterwards, and finds no value that was never inserted. *)
Theorem search_correct (ops : list op) (h : alloc) (v : Z) :
  ∃ root h',
    run ops (empty h) = Ok (root, h') ∧
    (inserted_not_deleted ops v → search root v = true) ∧
    (Insert v ∉ ops → search root v = false).
Proof.
  destruct (run_bst ops (empty h)) as ([root h'] & Hrun & B); [done|].
  exists root, h'. split; [done|].
  pose proof (run_member ops (empty h) (root, h') v I Hrun) as Hs.
  simpl in Hs. rewrite Hs.
  split; [apply member_after_live|apply member_after_never].
Qed.

(** C3. Delete-then-search: deleting [v] from a valid search tree returns a
    tree in which [v] is not found and every other value that a node of the
    tree held before the deletion is still found. *)
Theorem delete_then_search (root : tree) (v : Z) :
  bst root →
  ∃ root',
    delete root v = Ok root' ∧
    search root' v = false ∧
    ∀ w, w ≠ v → w ∈ inorder root → search root' w = true.
Proof.
  intros B. destruct (delete_total root v) as [root' Hd].
  exists root'. split; [done|]. split.
  - rewrite (search_delete _ _ _ _ B Hd), Z.eqb_refl.
    apply Bool.andb_false_r.
  - intros w Hw Hin. apply (search_elem_of _ _ B) in Hin.
    rewrite (search_delete _ _ _ _ B Hd), Hin.
    by destruct (Z.eqb_spec w v).
Qed.

Lemma delete_then_search_witness :
  bst demo_tree ∧
  ∃ root',
    delete demo_tree 30 = Ok root' ∧
    search root' 30 = false ∧
    ∀ w, w ≠ 30 → w ∈ inorder demo_tree → search root' w = true.
Proof.
  split; [exact demo_tree_bst|].
  apply (delete_then_search demo_tree 30). exact demo_tree_bst.
Defined.

(** C4. Insert idempotence on duplicates: inserting a value that a valid
    search tree already holds returns the tree as it was, with the same
    shape and the same inorder sequence, and allocates no node. *)
Theorem insert_duplicate (root : tree) (v : Z) (h : alloc) :
  bst root → v ∈ inorder root →
  insert root v h = (root, h) ∧
  shape_of (insert root v h).1 = shape_of root ∧
  inorder (insert root v h).1 = inorder root.
Proof. intros B Hv. by rewrite insert_present. Qed.

Lemma insert_duplicate_witness :
  insert demo_tree 60 7 = (demo_tree, 7%nat) ∧
  shape_of (insert demo_tree 60 7).1 = shape_of demo_tree ∧
  inorder (insert demo_tree 60 7).1 = inorder demo_tree.
Proof.
  apply (insert_duplicate demo_tree 60 7%nat); [exact demo_tree_bst|].
  simpl. repeat first [by left | right].
Defined.

(** C5. Deleting the key of a node that has both children: the minimum of
    the right subtree (the in-order successor of the key) is copied into the
    node, that value is deleted from the right subtree, and the node itself,
    with its left subtree untouched, is returned. *)
Theorem delete_two_children (a : addr) (k : Z) (l r : tree) :
  bst (Node a k l r) → l ≠ None_ → r ≠ None_ →
  ∃ m r',
    _min_value r = Ok m ∧
    m ∈ inorder r ∧ (∀ x, x ∈ inorder r → m ≤ x) ∧
    k < m ∧ (∀ x, x ∈ inorder (Node a k l r) → k < x → m ≤ x) ∧
    delete r m = Ok r' ∧
    delete (Node a k l r) k = Ok (Node a m l r') ∧
    address (Node a m l r') = address (Node a k l r).
Proof.
  intros B Hl Hr. pose proof B as (Fl & Fr & Bl & Br).
  rewrite Forall_forall in Fl, Fr.
  destruct (min_value_head r Hr) as (m & rest & Hm & _).
  destruct (min_value_least _ _ Br Hm) as [Hin Hle].
  destruct (delete_total r m) as [r' Hr'].
  exists m, r'. split_and!; auto.
  - intros x. simpl. rewrite elem_of_app, elem_of_cons.
    intros [Hx%Fl|[->|Hx]] ?; [lia..|auto].
  - simpl. rewrite Z.ltb_irrefl, Z.gtb_ltb, Z.ltb_irrefl.
    destruct l; [done|]. destruct r; [done|].
    rewrite Hm. cbn [bind]. rewrite Hr'. done.
Qed.

Lemma delete_two_children_witness :
  ∃ m r',
    _min_value (Node 4 70 (Node 5 60 None_ None_) (Node 6 80 None_ None_))
      = Ok m ∧
    m ∈ inorder (Node 4 70 (Node 5 60 None_ None_) (Node 6 80 None_ None_)) ∧
    (∀ x, x ∈ inorder
            (Node 4 70 (Node 5 60 None_ None_) (Node 6 80 None_ None_)) →
          m ≤ x) ∧
    50 < m ∧ (∀ x, x ∈ inorder demo_tree → 50 < x → m ≤ x) ∧
    delete (Node 4 70 (Node 5 60 None_ None_) (Node 6 80 None_ None_)) m
      = Ok r' ∧
    delete demo_tree 50 =
      Ok (Node 0 m
            (Node 1 30 (Node 2 20 None_ None_) (Node 3 40 None_ None_)) r') ∧
    address
      (Node 0 m
         (Node 1 30 (Node 2 20 None_ None_) (Node 3 40 None_ None_)) r') =
    address demo_tree.
Proof.
  apply (delete_two_children 0%nat 50
           (Node 1 30 (Node 2 20 None_ None_) (Node 3 40 None_ None_))
           (Node 4 70 (Node 5 60 None_ None_) (Node 6 80 None_ None_)));
    [exact demo_tree_bst|discriminate..].
Defined.

(** C6. [_min_value] on a node returns, without raising, the value of the
    left-most descendant, the first value of the inorder traversal, which
    under the ordering invariant of the data model is the minimum of the
    subtree; and [delete] never raises, on any tree and key: its only call
    of [_min_value] is on a right subtree that is a node. *)
Theorem min_value_safe (node root : tree) (key : Z) :
  (node ≠ None_ →
   ∃ m rest,
     _min_value node = Ok m ∧
     inorder node = m :: rest ∧
     (bst node → ∀ x, x ∈ inorder node → m ≤ x)) ∧
  (∃ root', delete root key = Ok root').
Proof.
  split; [|apply delete_total].
  intros Hn. destruct (min_value_head node Hn) as (m & rest & Hm & Hin).
  exists m, rest. split_and!; [done..|].
  intros B. by apply min_value_least.
Qed.

Lemma min_value_safe_witness :
  (∃ m rest,
     _min_value demo_tree = Ok m ∧
     inorder demo_tree = m :: rest ∧
     ∀ x, x ∈ inorder demo_tree → m ≤ x) ∧
  (∃ root', delete demo_tree 50 = Ok root').
Proof.
  destruct (min_value_safe demo_tree demo_tree 50) as [Hmin Hdel].
  split; [|exact Hdel].
  destruct Hmin as (m & rest & Hm & Hin & Hle); [discriminate|].
  exists m, rest. split_and!; [exact Hm|exact Hin|].
  exact (Hle demo_tree_bst).
Defined.

(** The property C7 as the specification words it fails when a value is
    inserted again after it was deleted: after insert 1, delete 1, insert 1
    the traversal yields one value, while one distinct value was inserted
    and one delete found its key. *)
Lemma size_as_stated_fails :
  ¬ size_as_stated [Insert 1; Delete 1; Insert 1].
Proof.
  intros H. specialize (H 0%nat _ _ _ eq_refl eq_refl). discriminate H.
Qed.

(** C7 (amended). Round-trip size: after every finite sequence of inserts
    and deletes run from the empty tree, the number of values the inorder
    traversal yields is the number of insert operations whose value was not
    in the tree when they ran minus the number of delete operations whose
    key was in the tree when they ran. *)
Theorem round_trip_size (ops : list op) (h : alloc) :
  ∃ root h' d f,
    run ops (empty h) = Ok (root, h') ∧
    present_deletes ops (empty h) = Ok d ∧
    fresh_inserts ops (empty h) = Ok f ∧
    Z.of_nat (length (inorder root)) = Z.of_nat f - Z.of_nat d.
Proof.
  destruct (run_size ops (empty h)) as ([root h'] & d & f & ? & ? & ? & Hlen);
    [done|].
  exists root, h', d, f. split_and!; [done..|]. simpl in Hlen. lia.
Qed.

(** C8. The demonstration: the seven inserts give the inorder sequence
    20 30 40 50 60 70 80; 40 is found and 90 is not; deleting 20, then 30,
    then 50 gives 30 40 50 60 70 80, then 40 50 60 70 80, then 40 60 70 80,
    where the root node now holds 60, the successor of 50. *)
Theorem example_transcript :
  binary_search_tree_example =
  Ok {| inorder_built := [20; 30; 40; 50; 60; 70; 80];
        search_40 := true;
        search_90 := false;
        inorder_del_20 := [30; 40; 50; 60; 70; 80];
        inorder_del_30 := [40; 50; 60; 70; 80];
        inorder_del_50 := [40; 60; 70; 80];
        final_root :=
          Node 0 60 (Node 3 40 None_ None_)
            (Node 4 70 None_ (Node 6 80 None_ None_)) |}.
Proof. reflexivity. Qed.

(** C9. Deleting a key that a valid search tree does not hold returns the
    tree as it was: same nodes, same shape, same inorder sequence. *)
Theorem delete_absent_unchanged (root : tree) (v : Z) :
  bst root → v ∉ inorder root →
  ∃ root',
    delete root v = Ok root' ∧
    root' = root ∧
    shape_of root' = shape_of root ∧
    inorder root' = inorder root.
Proof. intros _ Hv. exists root. by rewrite delete_absent. Qed.

Lemma delete_absent_unchanged_witness :
  ∃ root',
    delete demo_tree 65 = Ok root' ∧
    root' = demo_tree ∧
    shape_of root' = shape_of demo_tree ∧
    inorder root' = inorder demo_tree.
Proof.
  apply (delete_absent_unchanged demo_tree 65); [exact demo_tree_bst|].
  simpl. rewrite !not_elem_of_cons, elem_of_nil. repeat split; lia.
Defined.

(** ** Further properties of the tree operations *)

Lemma filter_all {A} (P : A → Prop) `{!∀ x, Decision (P x)} (l : list A) :
  Forall P l → filter P l = l.
Proof.
  induction 1 as [|x l Hx _ IH]; [done|].
  by rewrite filter_cons_True, IH.
Qed.

Lemma filter_none {A} (P : A → Prop) `{!∀ x, Decision (P x)} (l : list A) :
  Forall (λ x, ¬ P x) l → filter P l = [].
Proof.
  induction 1 as [|x l Hx _ IH]; [done|].
  by rewrite filter_cons_False, IH.
Qed.

(** X1. Insert then search: on every tree, valid or not, the value just
    inserted is found, because [search] follows the comparisons [insert]
    made. *)
Theorem insert_then_search (t : tree) (v : Z) (h : alloc) :
  search (insert t v h).1 v = true.
Proof.
  induction t as [|a d l IHl r IHr]; simpl.
  - by rewrite Z.eqb_refl.
  - cmp v d.
    + destruct (insert l v h) as [l' h']; simpl in *.
      destruct (Z.eqb_spec v d); [done|].
      by destruct (Z.ltb_spec v d); [|lia].
    + destruct (insert r v h) as [r' h']; simpl in *.
      destruct (Z.eqb_spec v d); [done|].
      by destruct (Z.ltb_spec v d); [lia|].
    + simpl. by destruct (Z.eqb_spec v d); [|lia].
Qed.

(** X2. The traversal after an insert into a valid tree is the traversal
    before it with the value put at its place in the order: the smaller
    values, the value once, the greater values. *)
Theorem insert_inorder (t : tree) (v : Z) (h : alloc) :
  bst t →
  inorder (insert t v h).1 =
  filter (λ x, x < v) (inorder t) ++ v :: filter (λ x, v < x) (inorder t).
Proof.
  induction t as [|a d l IHl r IHr]; simpl; [done|].
  intros (Hl & Hr & Bl & Br). rewrite !filter_app, !filter_cons. cmp v d.
  - specialize (IHl Bl). destruct (insert l v h) as [l' h']; simpl in *.
    rewrite IHl, decide_False, decide_True by lia.
    rewrite (filter_none (λ x, x < v) (inorder r)),
      (filter_all (λ x, v < x) (inorder r))
      by (eapply Forall_impl; [exact Hr|simpl; intros; lia]).
    rewrite app_nil_r. by rewrite <-app_assoc.
  - specialize (IHr Br). destruct (insert r v h) as [r' h']; simpl in *.
    rewrite IHr, decide_True, decide_False by lia.
    rewrite (filter_all (λ x, x < v) (inorder l)),
      (filter_none (λ x, v < x) (inorder l))
      by (eapply Forall_impl; [exact Hl|simpl; intros; lia]).
    by rewrite <-!app_assoc.
  - assert (v = d) as -> by lia. simpl.
    rewrite !decide_False by lia.
    rewrite (filter_all (λ x, x < d) (inorder l)),
      (filter_none (λ x, d < x) (inorder l)),
      (filter_none (λ x, x < d) (inorder r)),
      (filter_all (λ x, d < x) (inorder r));
      [by rewrite app_nil_r|..];
      (eapply Forall_impl; [eassumption|simpl; intros; lia]).
Qed.

Lemma insert_inorder_witness :
  inorder (insert demo_tree 65 7).1 =
  filter (λ x, x < 65) (inorder demo_tree) ++
  65 :: filter (λ x, 65 < x) (inorder demo_tree).
Proof. apply (insert_inorder demo_tree 65 7%nat). exact demo_tree_bst. Defined.

(** X3. [insert] keeps the ordering invariant of every valid tree. *)
Theorem insert_keeps_order (t : tree) (v : Z) (h : alloc) :
  bst t → bst (insert t v h).1.
Proof. apply insert_bst. Qed.

Lemma insert_keeps_order_witness : bst (insert demo_tree 65 7).1.
Proof. apply (insert_keeps_order demo_tree 65 7%nat). exact demo_tree_bst. Defined.

(** X4. In a valid tree [search] finds a key exactly when a node holds it,
    that is, when the traversal yields it. *)
Theorem search_iff_present (t : tree) (key : Z) :
  bst t → search t key = true ↔ key ∈ inorder t.
Proof. apply search_elem_of. Qed.

Lemma search_iff_present_witness :
  search demo_tree 60 = true ↔ 60 ∈ inorder demo_tree.
Proof. apply (search_iff_present demo_tree 60). exact demo_tree_bst. Defined.

(** X5. The traversal after a delete from a valid tree is the traversal
    before it without the key: every other value stays, in the same
    order. *)
Theorem delete_inorder (t : tree) (key : Z) :
  bst t →
  ∃ t', delete t key = Ok t' ∧
        inorder t' = filter (λ x, x ≠ key) (inorder t).
Proof.
  intros B. destruct (delete_total t key) as [t' Hd].
  exists t'. split; [done|].
  revert key t' B Hd. induction t as [|a d l IHl r IHr]; intros k t' B Hd.
  - by injection Hd as <-.
  - pose proof B as (Hl & Hr & Bl & Br).
    assert (∀ x, x < d → filter (λ y, y ≠ x) (inorder r) = inorder r) as Fr.
    { intros x Hx. apply filter_all.
      eapply Forall_impl; [exact Hr|simpl; intros; lia]. }
    assert (∀ x, d < x → filter (λ y, y ≠ x) (inorder l) = inorder l) as Fl.
    { intros x Hx. apply filter_all.
      eapply Forall_impl; [exact Hl|simpl; intros; lia]. }
    assert (filter (λ y, y ≠ d) (inorder l) = inorder l) as Fld.
    { apply filter_all. eapply Forall_impl; [exact Hl|simpl; intros; lia]. }
    assert (filter (λ y, y ≠ d) (inorder r) = inorder r) as Frd.
    { apply filter_all. eapply Forall_impl; [exact Hr|simpl; intros; lia]. }
    apply delete_Node_cases in Hd
      as [(Hk & l' & Hl' & ->)|[(Hk & r' & Hr' & ->)|[(-> & -> & ->)|
          [(-> & _ & -> & ->)|(-> & _ & _ & m & r' & Hm & Hr' & ->)]]]];
      simpl; rewrite ?filter_app, ?filter_cons.
    + rewrite (IHl _ _ Bl Hl'), decide_True, Fr by lia. done.
    + rewrite (IHr _ _ Br Hr'), decide_True, Fl by lia. done.
    + rewrite decide_False by (intros ?; done). by rewrite Frd.
    + rewrite decide_False by (intros ?; done). by rewrite Fld, app_nil_r.
    + rewrite decide_False by (intros ?; done). rewrite Fld, Frd.
      rewrite (IHr _ _ Br Hr'). f_equal.
      destruct r as [|ar dr lr rr]; [done|].
      destruct (min_value_head (Node ar dr lr rr)) as (m' & rest & Hm' & Hin);
        [done|].
      assert (m' = m) as -> by congruence.
      pose proof (bst_sorted _ Br) as Hs. rewrite Hin in *.
      apply StronglySorted_cons in Hs as [Hlt _].
      rewrite filter_cons_False by (intros ?; done). f_equal.
      apply filter_all. eapply Forall_impl; [exact Hlt|simpl; intros; lia].
Qed.

Lemma delete_inorder_witness :
  ∃ t', delete demo_tree 50 = Ok t' ∧
        inorder t' = filter (λ x, x ≠ 50) (inorder demo_tree).
Proof. apply (delete_inorder demo_tree 50). exact demo_tree_bst. Defined.

(** X6. [delete] keeps the ordering invariant of every valid tree. *)
Theorem delete_keeps_order (t : tree) (key : Z) :
  bst t → ∃ t', delete t key = Ok t' ∧ bst t'.
Proof.
  intros B. destruct (delete_total t key) as [t' Hd].
  exists t'. eauto using delete_bst.
Qed.

Lemma delete_keeps_order_witness :
  ∃ t', delete demo_tree 50 = Ok t' ∧ bst t'.
Proof. apply (delete_keeps_order demo_tree 50). exact demo_tree_bst. Defined.

(** X7. Insert then delete: deleting a value right after inserting it into
    a tree that did not hold it gives back the tree as it was, node for
    node. *)
Theorem insert_then_delete (t : tree) (v : Z) (h : alloc) :
  v ∉ inorder t → delete (insert t v h).1 v = Ok t.
Proof.
  induction t as [|a d l IHl r IHr]; simpl.
  - intros _. by rewrite Z.ltb_irrefl, Z.gtb_ltb, Z.ltb_irrefl.
  - rewrite elem_of_app, elem_of_cons. intros Hv. cmp v d.
    + destruct (insert l v h) as [l' h']; simpl in *.
      destruct (Z.ltb_spec v d); [|lia]. rewrite IHl by tauto. done.
    + destruct (insert r v h) as [r' h']; simpl in *.
      destruct (Z.ltb_spec v d); [lia|].
      destruct (Z.gtb_spec v d); [|lia]. rewrite IHr by tauto. done.
    + exfalso. apply Hv. right; left. lia.
Qed.

Lemma insert_then_delete_witness :
  delete (insert demo_tree 65 7).1 65 = Ok demo_tree.
Proof.
  apply (insert_then_delete demo_tree 65 7%nat).
  simpl. rewrite !not_elem_of_cons, elem_of_nil. repeat split; lia.
Defined.

(** X8. Deleting the same key a second time changes nothing: the first
    delete from a valid tree returns a tree that the second returns as it
    is. *)
Theorem delete_twice (t : tree) (key : Z) :
  bst t → ∃ t', delete t key = Ok t' ∧ delete t' key = Ok t'.
Proof.
  intros B. destruct (delete_total t key) as [t' Hd].
  exists t'. split; [done|]. apply delete_absent.
  rewrite (delete_elem_of _ _ _ _ B Hd). tauto.
Qed.

Lemma delete_twice_witness :
  ∃ t', delete demo_tree 30 = Ok t' ∧ delete t' 30 = Ok t'.
Proof. apply (delete_twice demo_tree 30). exact demo_tree_bst. Defined.

(** X9. Searching after an insert into a valid tree: a key is found exactly
    when it was found before or is the inserted value, so an insert never
    hides a value and adds no other. *)
Theorem insert_search (t : tree) (x : Z) (h : alloc) (key : Z) :
  bst t → search (insert t x h).1 key = search t key || (key =? x).
Proof. apply search_insert. Qed.

Lemma insert_search_witness :
  search (insert demo_tree 65 7).1 40 = search demo_tree 40 || (40 =? 65).
Proof. apply (insert_search demo_tree 65 7%nat 40). exact demo_tree_bst. Defined.

(** ** Nodes *)

Lemma insert_nodes t v h :
  insert t v h = (t, h) ∨
  ((insert t v h).2 = S h ∧ nodes (insert t v h).1 ≡ₚ h :: nodes t).
Proof.
  induction t as [|a d l IHl r IHr]; simpl.
  - right. done.
  - cmp v d; [| |by left].
    + destruct IHl as [->|[Hh Hp]]; [by left|right].
      destruct (insert l v h) as [l' h']; simpl in *.
      split; [done|]. by rewrite Hp.
    + destruct IHr as [->|[Hh Hp]]; [by left|right].
      destruct (insert r v h) as [r' h']; simpl in *.
      split; [done|]. rewrite Hp. solve_Permutation.
Qed.

Lemma delete_nodes t k t' : delete t k = Ok t' → nodes t' `sublist_of` nodes t.
Proof.
  revert k t'. induction t as [|a d l IHl r IHr]; intros k t' Hd.
  - by injection Hd as <-.
  - apply delete_Node_cases in Hd
      as [(Hk & l' & Hl' & ->)|[(Hk & r' & Hr' & ->)|[(-> & -> & ->)|
          [(-> & _ & -> & ->)|(-> & _ & _ & m & r' & Hm & Hr' & ->)]]]];
      simpl.
    + apply sublist_app; [eauto|done].
    + apply sublist_app; [done|]. apply sublist_skip. eauto.
    + by apply sublist_cons.
    + by apply sublist_inserts_r.
    + apply sublist_app; [done|]. apply sublist_skip. eauto.
Qed.

(** X10. Inserting a value that the tree does not hold allocates exactly
    one node, at the next free address, and keeps every node the tree
    had. *)
Theorem insert_allocates (t : tree) (v : Z) (h : alloc) :
  v ∉ inorder t →
  (insert t v h).2 = S h ∧ nodes (insert t v h).1 ≡ₚ h :: nodes t.
Proof.
  intros Hv. destruct (insert_nodes t v h) as [Heq|?]; [|done].
  exfalso. apply Hv. pose proof (insert_elem_of t v h v) as Hin.
  rewrite Heq in Hin. simpl in Hin. tauto.
Qed.

Lemma insert_allocates_witness :
  (insert demo_tree 65 7).2 = 8%nat ∧
  nodes (insert demo_tree 65 7).1 ≡ₚ 7%nat :: nodes demo_tree.
Proof.
  apply (insert_allocates demo_tree 65 7%nat).
  simpl. rewrite !not_elem_of_cons, elem_of_nil. repeat split; lia.
Defined.

(** X11. [delete] creates no node: on every tree the nodes of the result
    are nodes of the argument, in the same order, and at most one is
    gone. *)
Theorem delete_creates_no_node (t : tree) (key : Z) :
  ∃ t',
    delete t key = Ok t' ∧
    nodes t' `sublist_of` nodes t ∧
    (length (nodes t) ≤ S (length (nodes t')))%nat.
Proof.
  destruct (delete_total t key) as [t' Hd]. exists t'.
  split; [done|]. split; [by eapply delete_nodes|].
  clear -Hd. revert key t' Hd.
  induction t as [|a d l IHl r IHr]; intros k t' Hd.
  - injection Hd as <-. simpl. lia.
  - apply delete_Node_cases in Hd
      as [(Hk & l' & Hl' & ->)|[(Hk & r' & Hr' & ->)|[(-> & -> & ->)|
          [(-> & _ & -> & ->)|(-> & _ & _ & m & r' & Hm & Hr' & ->)]]]];
      simpl; rewrite ?length_app; simpl.
    + specialize (IHl _ _ Hl'). lia.
    + specialize (IHr _ _ Hr'). lia.
    + lia.
    + lia.
    + specialize (IHr _ _ Hr'). lia.
Qed.

Lemma run_addresses ops lo s :
  NoDup (nodes s.1) → Forall (λ a, lo ≤ a < s.2)%nat (nodes s.1) →
  (lo ≤ s.2)%nat →
  ∃ s', run ops s = Ok s' ∧ NoDup (nodes s'.1) ∧
        Forall (λ a, lo ≤ a < s'.2)%nat (nodes s'.1) ∧ (lo ≤ s'.2)%nat.
Proof.
  revert s. induction ops as [|o ops IH]; intros [t h] Hnd Hall Hlo;
    simpl in *; [by eauto|].
  destruct o as [v|v]; simpl.
  - destruct (insert_nodes t v h) as [->|[Hh Hp]]; [by apply IH|].
    destruct (insert t v h) as [t1 h1]; simpl in *. subst h1.
    apply IH; simpl.
    + rewrite Hp. apply NoDup_cons. split; [|done].
      intros Hin. rewrite Forall_forall in Hall. apply Hall in Hin. lia.
    + rewrite Hp. constructor; [lia|].
      eapply Forall_impl; [exact Hall|simpl; intros; lia].
    + lia.
  - destruct (delete_total t v) as [t1 Hd]. rewrite Hd. simpl.
    pose proof (delete_nodes _ _ _ Hd) as Hsub.
    apply IH; simpl; [by eapply sublist_NoDup| |done].
    rewrite Forall_forall in *. intros a Ha. apply Hall.
    by eapply elem_of_sublist.
Qed.

(** X12. No node is shared: after every sequence of inserts and deletes run
    from the empty tree, the nodes of the tree are pairwise distinct
    objects, each allocated during the run. *)
Theorem nodes_distinct (ops : list op) (h : alloc) :
  ∃ root h',
    run ops (empty h) = Ok (root, h') ∧
    NoDup (nodes root) ∧
    Forall (λ a, h ≤ a < h')%nat (nodes root).
Proof.
  destruct (run_addresses ops h (empty h))
    as ([root h'] & Hrun & Hnd & Hall & _); simpl; [constructor..|done|].
  by exists root, h'.
Qed.

(** X20. Sizes: on a valid tree an insert makes the traversal one value
    longer when the value was not found and leaves its length otherwise; a
    delete makes it one value shorter when the key was found and leaves its
    length otherwise. *)
Theorem size_change (t : tree) (v : Z) (h : alloc) :
  bst t →
  length (inorder (insert t v h).1) =
    (length (inorder t) + if search t v then 0 else 1)%nat ∧
  ∃ t', delete t v = Ok t' ∧
        (length (inorder t') + if search t v then 1 else 0)%nat =
        length (inorder t).
Proof.
  intros B. split; [by apply insert_length|].
  destruct (delete_total t v) as [t' Hd]. exists t'.
  split; [done|]. by apply delete_length.
Qed.

Lemma size_change_witness :
  length (inorder (insert demo_tree 65 7).1) =
    (length (inorder demo_tree) + if search demo_tree 65 then 0 else 1)%nat ∧
  ∃ t', delete demo_tree 65 = Ok t' ∧
        (length (inorder t') + if search demo_tree 65 then 1 else 0)%nat =
        length (inorder demo_tree).
Proof. apply (size_change demo_tree 65 7%nat). exact demo_tree_bst. Defined.

End BinarySearchTreeProofs.

Module BellNumbersProofs.
Import BellNumbers.

(** ** Polynomials over the falling factorials *)

(** Two coefficient sequences are compared pointwise. *)
Notation "c ≐ d" := (∀ k : nat, c k = d k) (at level 70, only parsing).

Lemma mul_x_ext c d : c ≐ d → mul_x c ≐ mul_x d.
Proof. intros H [|k]; simpl; [done|]. by rewrite !H. Qed.

Lemma mul_x1_ext c d : c ≐ d → mul_x1 c ≐ mul_x1 d.
Proof. intros H k. unfold mul_x1. by rewrite H, (mul_x_ext c d H). Qed.

Lemma sumto_ext n c d : c ≐ d → sumto n c = sumto n d.
Proof. intros H. induction n as [|n IH]; simpl; [done|]. by rewrite IH, H. Qed.

Lemma sumto_ext_upto n c d :
  (∀ k, (k ≤ n)%nat → c k = d k) → sumto n c = sumto n d.
Proof.
  induction n as [|n IH]; simpl; intros H; [by apply H|].
  rewrite IH, H by auto with lia. done.
Qed.

Lemma iter_mul_x_ext a c d : c ≐ d → Nat.iter a mul_x c ≐ Nat.iter a mul_x d.
Proof. intros H. induction a as [|a IH]; simpl; [done|]. by apply mul_x_ext. Qed.

Lemma sumto_add n c d : sumto n (λ k, c k + d k) = sumto n c + sumto n d.
Proof. induction n as [|n IH]; simpl; [done|]. rewrite IH. lia. Qed.

(** Multiplying by [x] and by [x + 1] commute. *)
Lemma mul_x_mul_x1 c : mul_x (mul_x1 c) ≐ mul_x1 (mul_x c).
Proof. intros [|[|k]]; unfold mul_x1; simpl; lia. Qed.

Lemma iter_mul_x_mul_x1 a c :
  Nat.iter a mul_x (mul_x1 c) ≐ mul_x1 (Nat.iter a mul_x c).
Proof.
  induction a as [|a IH]; simpl; [done|]. intros k.
  rewrite (mul_x_ext _ _ IH). apply mul_x_mul_x1.
Qed.

(** Substituting [x + 1] in [x * p] gives [(x + 1) * p(x + 1)]. *)
Lemma shift_mul_x c : shift (mul_x c) ≐ mul_x1 (shift c).
Proof. intros [|k]; unfold shift, mul_x1; simpl; lia. Qed.

Lemma shift_one : shift one ≐ one.
Proof. intros [|k]; unfold shift; simpl; lia. Qed.

Lemma shift_power i : shift (Nat.iter i mul_x one) ≐ Nat.iter i mul_x1 one.
Proof.
  induction i as [|i IH]; simpl; [apply shift_one|]. intros k.
  rewrite shift_mul_x. by apply mul_x1_ext.
Qed.

(** The sum of the coefficients of [x * p] and of [p(x + 1)] agree: both
    are [c 0 + ... + c n + 1 * c 1 + ... + (n + 1) * c (n + 1)]. *)
Lemma sumto_mul_x n c : sumto (S n) (mul_x c) = sumto n (shift c).
Proof.
  induction n as [|n IH].
  - unfold shift. simpl. lia.
  - change (sumto (S (S n)) (mul_x c))
      with (sumto (S n) (mul_x c) + mul_x c (S (S n))).
    rewrite IH. unfold shift. simpl. lia.
Qed.

Lemma below_one : below 0 one.
Proof. intros [|k] ?; [lia|done]. Qed.

Lemma below_mul_x n c : below n c → below (S n) (mul_x c).
Proof.
  intros H [|k] ?; [lia|]. simpl. rewrite (H k), (H (S k)) by lia. lia.
Qed.

Lemma below_mul_x1 n c : below n c → below (S n) (mul_x1 c).
Proof.
  intros H k ?. unfold mul_x1. rewrite (below_mul_x n c H k), (H k) by lia.
  done.
Qed.

Lemma below_iter_mul_x a n c : below n c → below (a + n) (Nat.iter a mul_x c).
Proof. intros H. induction a as [|a IH]; simpl; [done|]. by apply below_mul_x. Qed.

Lemma below_iter_mul_x1 a : below a (Nat.iter a mul_x1 one).
Proof.
  induction a as [|a IH]; simpl; [apply below_one|]. by apply below_mul_x1.
Qed.

(** ** Python lists and tables *)

Lemma position_ok {A} (l : list A) (i : Z) :
  0 ≤ i < Z.of_nat (length l) → position l i = Ok (Z.to_nat i).
Proof.
  intros Hi. unfold position.
  destruct (Z.ltb_spec i 0); [lia|].
  destruct (Z.leb_spec 0 i); [|lia].
  destruct (Z.ltb_spec i (Z.of_nat (length l))); [done|lia].
Qed.

Lemma getitem_ok {A} (l : list A) (i : Z) (x : A) :
  0 ≤ i → l !! Z.to_nat i = Some x → getitem l i = Ok x.
Proof.
  intros Hi Hx. unfold getitem. rewrite position_ok; simpl.
  - by rewrite Hx.
  - apply lookup_lt_Some in Hx. lia.
Qed.

Lemma setitem_ok {A} (l : list A) (i : Z) (x : A) :
  0 ≤ i < Z.of_nat (length l) → setitem l i x = Ok (<[Z.to_nat i:=x]> l).
Proof. intros Hi. unfold setitem. by rewrite position_ok. Qed.

Lemma square_lookup m t (i : nat) :
  square m t → (i < m)%nat → ∃ row, t !! i = Some row ∧ length row = m.
Proof.
  intros [Hlen Hrows] Hi.
  destruct (lookup_lt_is_Some_2 t i) as [row Hrow]; [lia|].
  exists row. split; [done|]. by eapply Forall_lookup_1 in Hrows.
Qed.

Lemma get2_ok m t (i j : Z) :
  square m t → 0 ≤ i < Z.of_nat m → 0 ≤ j < Z.of_nat m →
  get2 t i j = Ok (ent t (Z.to_nat i) (Z.to_nat j)).
Proof.
  intros Hsq Hi Hj.
  destruct (square_lookup m t (Z.to_nat i) Hsq) as (row & Hrow & Hlen); [lia|].
  destruct (lookup_lt_is_Some_2 row (Z.to_nat j)) as [x Hx]; [lia|].
  unfold get2, ent. rewrite (getitem_ok t i row), Hrow, Hx by (done || lia).
  simpl. by apply getitem_ok; [lia|].
Qed.

Lemma set2_ok m t (i j : Z) (x : Z) :
  square m t → 0 ≤ i < Z.of_nat m → 0 ≤ j < Z.of_nat m →
  ∃ t',
    set2 t i j x = Ok t' ∧ square m t' ∧
    ∀ i' j',
      ent t' i' j' =
      if decide (i' = Z.to_nat i ∧ j' = Z.to_nat j) then x else ent t i' j'.
Proof.
  intros Hsq Hi Hj.
  destruct (square_lookup m t (Z.to_nat i) Hsq) as (row & Hrow & Hlen); [lia|].
  exists (<[Z.to_nat i:=<[Z.to_nat j:=x]> row]> t).
  destruct Hsq as [Ht Hrows]. split_and!.
  - unfold set2. rewrite (getitem_ok t i row) by (done || lia).
    cbn [bind]. rewrite setitem_ok by lia. cbn [bind].
    apply setitem_ok. lia.
  - split; [by rewrite length_insert|].
    apply Forall_insert; [done|]. by rewrite length_insert.
  - intros i' j'. unfold ent.
    destruct (decide (i' = Z.to_nat i)) as [->|Hne].
    + rewrite list_lookup_insert_eq, Hrow by lia.
      destruct (decide (j' = Z.to_nat j)) as [->|Hne].
      * rewrite list_lookup_insert_eq by lia. by rewrite decide_True.
      * rewrite list_lookup_insert_ne by done. by rewrite decide_False by tauto.
    + rewrite list_lookup_insert_ne by done. by rewrite decide_False by tauto.
Qed.

Lemma zeros_square n : 0 ≤ n → square (Z.to_nat (n + 1)) (zeros n).
Proof.
  intros Hn. unfold zeros, range. split.
  - rewrite length_fmap, length_seqZ. f_equal. lia.
  - apply Forall_fmap, Forall_forall. intros k _. simpl.
    rewrite length_fmap, length_seqZ. f_equal. lia.
Qed.

Lemma zeros_ent n i j : ent (zeros n) i j = 0.
Proof.
  unfold ent, zeros. rewrite list_lookup_fmap.
  destruct (range 0 (n + 1) !! i); simpl; [|done].
  rewrite list_lookup_fmap. by destruct (range 0 (n + 1) !! j).
Qed.

Lemma sum_snoc l x : sum (l ++ [x]) = sum l + x.
Proof. unfold sum. by rewrite foldl_app. Qed.

(** The sum of a row of [n + 1] entries. *)
Lemma sum_row (row : list Z) n :
  length row = S n → sum row = sumto n (λ j, default 0 (row !! j)).
Proof.
  revert n. induction row as [|x row IH] using rev_ind; intros n; [done|].
  rewrite length_app, sum_snoc. simpl. intros Hlen.
  destruct n as [|n].
  - destruct row; [done|simpl in Hlen; lia].
  - rewrite (IH n) by lia. simpl. f_equal.
    + apply sumto_ext_upto. intros k Hk. by rewrite lookup_app_l by lia.
    + rewrite lookup_app_r by lia. by replace (S n - length row)%nat with 0%nat by lia.
Qed.

(** ** Tables with a known content *)

Lemma expect_get2 m D G t (i j : Z) :
  expect m D G t → 0 ≤ i < Z.of_nat m → 0 ≤ j < Z.of_nat m →
  D (Z.to_nat i) (Z.to_nat j) →
  get2 t i j = Ok (G (Z.to_nat i) (Z.to_nat j)).
Proof.
  intros [Hsq HG] Hi Hj HD. rewrite (get2_ok m) by done.
  rewrite HG by (done || lia). done.
Qed.

Lemma expect_set2 m (D D' : nat → nat → Prop) G G' t (i j : Z) (x : Z) :
  expect m D G t → 0 ≤ i < Z.of_nat m → 0 ≤ j < Z.of_nat m →
  (∀ i' j', (i' < m)%nat → (j' < m)%nat → D' i' j' →
     if decide (i' = Z.to_nat i ∧ j' = Z.to_nat j) then G' i' j' = x
     else D i' j' ∧ G' i' j' = G i' j') →
  ∃ t', set2 t i j x = Ok t' ∧ expect m D' G' t'.
Proof.
  intros [Hsq HG] Hi Hj Hnew.
  destruct (set2_ok m t i j x) as (t' & Hset & Hsq' & Hent); [done..|].
  exists t'. split; [done|]. split; [done|].
  intros i' j' Hi' Hj' HD'. rewrite Hent.
  specialize (Hnew i' j' Hi' Hj' HD'). case_decide; [done|].
  destruct Hnew as [HD ->]. auto.
Qed.

Lemma expect_weaken m (D D' : nat → nat → Prop) G G' t :
  expect m D G t →
  (∀ i' j', (i' < m)%nat → (j' < m)%nat → D' i' j' →
     D i' j' ∧ G' i' j' = G i' j') →
  expect m D' G' t.
Proof.
  intros [Hsq HG] Hnew. split; [done|]. intros i' j' Hi' Hj' HD'.
  destruct (Hnew i' j' Hi' Hj' HD') as [HD ->]. auto.
Qed.

Lemma zeros_expect n :
  0 ≤ n → expect (Z.to_nat (n + 1)) all_cells (λ _ _, 0) (zeros n).
Proof.
  intros Hn. split; [by apply zeros_square|]. intros. apply zeros_ent.
Qed.

(** ** Loops *)

Lemma range_nil lo hi : hi ≤ lo → range lo hi = [].
Proof. intros. apply seqZ_nil. lia. Qed.

Lemma range_cons lo hi : lo < hi → range lo hi = lo :: range (lo + 1) hi.
Proof.
  intros. unfold range. rewrite seqZ_cons by lia. do 2 f_equal; lia.
Qed.

(** The invariant rule of a [for] loop over a range. *)
Lemma for_range {S} (P : Z → S → Prop) (body : Z → S → result S) lo hi s :
  lo ≤ hi → P lo s →
  (∀ k s, lo ≤ k < hi → P k s → ∃ s', body k s = Ok s' ∧ P (k + 1) s') →
  ∃ s', for_ (range lo hi) body s = Ok s' ∧ P hi s'.
Proof.
  intros Hle Hs Hbody.
  remember (Z.to_nat (hi - lo)) as n eqn:Hn.
  revert lo s Hle Hs Hbody Hn. induction n as [|n IH]; intros lo s Hle Hs Hbody Hn.
  - assert (hi = lo) as -> by lia. rewrite range_nil by lia. simpl. eauto.
  - rewrite range_cons by lia. simpl.
    destruct (Hbody lo s) as (s1 & -> & Hs1); [lia|done|]. simpl.
    apply IH; [lia|done| |lia].
    intros k s2 Hk. apply Hbody. lia.
Qed.

(** ** The recurrences of the two tables *)

Lemma stirling2_0 j : stirling2 0 j = if decide (j = 0%nat) then 1 else 0.
Proof. by destruct j. Qed.

Lemma stirling2_S_0 i : stirling2 (S i) 0 = 0.
Proof. done. Qed.

Lemma stirling2_S_S i j :
  stirling2 (S i) (S j) =
  Z.of_nat (S j) * stirling2 i (S j) + stirling2 i j.
Proof. unfold stirling2. simpl. lia. Qed.

Lemma stirling2_above i j : (i < j)%nat → stirling2 i j = 0.
Proof.
  intros H. unfold stirling2.
  pose proof (below_iter_mul_x i 0 one below_one) as Hb.
  apply Hb. lia.
Qed.

Lemma triangle_0_0 : triangle 0 0 = 1.
Proof. done. Qed.

Lemma triangle_S_0 i : triangle (S i) 0 = triangle i i.
Proof.
  unfold triangle. rewrite Nat.sub_0_r, Nat.sub_diag. simpl Nat.iter.
  rewrite sumto_mul_x. apply sumto_ext, shift_power.
Qed.

Lemma triangle_S_S i j :
  (j ≤ i)%nat → triangle (S i) (S j) = triangle i j + triangle (S i) j.
Proof.
  intros Hj. unfold triangle.
  replace (S i - S j)%nat with (i - j)%nat by lia.
  replace (S i - j)%nat with (S (i - j)) by lia.
  set (d0 := Nat.iter j mul_x1 one). set (d := Nat.iter (i - j) mul_x d0).
  change (Nat.iter (S j) mul_x1 one) with (mul_x1 d0).
  rewrite (sumto_ext _ _ _ (iter_mul_x_mul_x1 (i - j) d0)). fold d.
  unfold mul_x1 at 1. rewrite sumto_add.
  change (Nat.iter (S (i - j)) mul_x d0) with (mul_x d).
  assert (below i d) as Hd.
  { replace i with ((i - j) + j)%nat at 1 by lia.
    apply below_iter_mul_x, below_iter_mul_x1. }
  change (sumto (S i) d) with (sumto i d + d (S i)).
  rewrite (Hd (S i)) by lia. lia.
Qed.

(** The first column of the Bell triangle is the row sum of the Stirling
    numbers. *)
Lemma triangle_stirling2 n : triangle n 0 = sumto n (stirling2 n).
Proof. unfold triangle. rewrite Nat.sub_0_r. done. Qed.

(** ** The Bell triangle loops *)

(** Unfolds the regions and settles the index arithmetic. *)
Ltac cells := unfold bell_done, before, all_cells in *; lia.

Lemma bell_row m (i : Z) t :
  1 ≤ i < Z.of_nat m →
  expect m (bell_done i 1) triangle t →
  ∃ t',
    for_ (range 1 (i + 1)) (λ j bell,
      a <- get2 bell (i - 1) (j - 1) ;;
      b <- get2 bell i (j - 1) ;;
      set2 bell i j (a + b)) t = Ok t' ∧
    expect m (bell_done (i + 1) 0) triangle t'.
Proof.
  intros Hi Ht.
  match goal with
  | |- ∃ t', for_ _ ?body _ = _ ∧ _ =>
      destruct (for_range (λ j t, expect m (bell_done i j) triangle t)
                  body 1 (i + 1) t) as (t' & Hfor & Ht')
  end; [lia|exact Ht| |].
  - intros j t0 Hj Ht0.
    rewrite (expect_get2 m _ _ t0 (i - 1) (j - 1) Ht0) by cells.
    cbn [bind]. rewrite (expect_get2 m _ _ t0 i (j - 1) Ht0) by cells.
    cbn [bind]. eapply expect_set2; [exact Ht0|lia..|].
    intros i' j' _ _ Hd. case_decide as Hc.
    + destruct Hc as [-> ->].
      replace (Z.to_nat i) with (S (Z.to_nat (i - 1))) by lia.
      replace (Z.to_nat j) with (S (Z.to_nat (j - 1))) by lia.
      apply triangle_S_S. lia.
    + split; [cells|done].
  - exists t'. split; [exact Hfor|].
    eapply expect_weaken; [exact Ht'|]. intros i' j' _ _ Hd.
    split; [cells|done].
Qed.

Lemma bell_rows (n : Z) t :
  1 ≤ n →
  expect (Z.to_nat (n + 1)) (bell_done 1 0) triangle t →
  ∃ t',
    for_ (range 1 (n + 1)) (λ i bell,
      v <- get2 bell (i - 1) (i - 1) ;;
      bell <- set2 bell i 0 v ;;
      for_ (range 1 (i + 1)) (λ j bell,
        a <- get2 bell (i - 1) (j - 1) ;;
        b <- get2 bell i (j - 1) ;;
        set2 bell i j (a + b)) bell) t = Ok t' ∧
    expect (Z.to_nat (n + 1)) (bell_done (n + 1) 0) triangle t'.
Proof.
  intros Hn Ht. set (m := Z.to_nat (n + 1)) in *.
  apply (for_range (λ i t, expect m (bell_done i 0) triangle t));
    [lia|exact Ht|].
  intros i t0 Hi Ht0.
  rewrite (expect_get2 m _ _ t0 (i - 1) (i - 1) Ht0) by cells.
  cbn [bind].
  destruct (expect_set2 m (bell_done i 0) (bell_done i 1) triangle triangle
              t0 i 0 (triangle (Z.to_nat (i - 1)) (Z.to_nat (i - 1))) Ht0)
    as (t1 & -> & Ht1); [lia..| |].
  - intros i' j' _ _ Hd. case_decide as Hc.
    + destruct Hc as [-> ->].
      replace (Z.to_nat i) with (S (Z.to_nat (i - 1))) by lia.
      apply triangle_S_0.
    + split; [cells|done].
  - cbn [bind]. apply bell_row; [lia|done].
Qed.

(** [bell_number] returns the first entry of row [n] of the triangle. *)
Lemma bell_number_triangle (n : Z) :
  0 ≤ n → bell_number n = Ok (triangle (Z.to_nat n) 0).
Proof.
  intros Hn. unfold bell_number.
  destruct (Z.ltb_spec n 0); [lia|].
  destruct (Z.eqb_spec n 0) as [->|Hn0]; [done|].
  destruct (expect_set2 _ all_cells (bell_done 1 0) (λ _ _, 0) triangle
              (zeros n) 0 0 1 (zeros_expect n Hn))
    as (t0 & -> & Ht0); [lia..| |].
  - intros i' j' _ _ Hd. case_decide as Hc.
    + by destruct Hc as [-> ->].
    + cells.
  - cbn [bind]. destruct (bell_rows n t0) as (t1 & -> & Ht1); [lia|done|].
    cbn [bind]. rewrite (expect_get2 _ _ _ t1 n 0 Ht1) by cells. done.
Qed.

(** ** The Stirling table loops *)

Lemma stirling_at_before i j i' j' :
  before i j i' j' → stirling_at i j i' j' = stirling2 i' j'.
Proof. intros H. unfold stirling_at. by rewrite decide_True. Qed.

Lemma stirling_at_later i j i' j' :
  ¬ before i j i' j' → stirling_at i j i' j' = 0.
Proof. intros H. unfold stirling_at. by rewrite decide_False. Qed.

(** The base-case loop writes zeros over zeros. *)
Lemma stirling_base (n : Z) t :
  0 ≤ n →
  expect (Z.to_nat (n + 1)) all_cells (λ _ _, 0) t →
  ∃ t',
    for_ (range 0 (n + 1)) (λ i stirling,
      stirling <- set2 stirling i 0 0 ;;
      set2 stirling 0 i 0) t = Ok t' ∧
    expect (Z.to_nat (n + 1)) all_cells (λ _ _, 0) t'.
Proof.
  intros Hn Ht. set (m := Z.to_nat (n + 1)) in *.
  apply (for_range (λ _ t, expect m all_cells (λ _ _, 0) t));
    [lia|exact Ht|].
  intros i t0 Hi Ht0.
  destruct (expect_set2 m all_cells all_cells (λ _ _, 0) (λ _ _, 0)
              t0 i 0 0 Ht0) as (t1 & -> & Ht1); [lia..| |].
  { intros i' j' _ _ _. by case_decide. }
  cbn [bind]. eapply expect_set2; [exact Ht1|lia..|].
  intros i' j' _ _ _. by case_decide.
Qed.

Lemma stirling_row m (i : Z) t :
  1 ≤ i < Z.of_nat m →
  expect m all_cells (stirling_at i 0) t →
  ∃ t',
    for_ (range 1 (i + 1)) (λ j stirling,
      a <- get2 stirling (i - 1) j ;;
      b <- get2 stirling (i - 1) (j - 1) ;;
      set2 stirling i j (j * a + b)) t = Ok t' ∧
    expect m all_cells (stirling_at (i + 1) 0) t'.
Proof.
  intros Hi Ht.
  match goal with
  | |- ∃ t', for_ _ ?body _ = _ ∧ _ =>
      destruct (for_range (λ j t, expect m all_cells (stirling_at i j) t)
                  body 1 (i + 1) t) as (t' & Hfor & Ht')
  end; [lia| | |].
  - eapply expect_weaken; [exact Ht|]. intros i' j' _ _ _. split; [done|].
    destruct (decide (before i 0 i' j')) as [Hb|Hb].
    + rewrite !stirling_at_before by cells. done.
    + rewrite (stirling_at_later i 0) by done.
      destruct (decide (before i 1 i' j')) as [Hb1|Hb1];
        [|by rewrite stirling_at_later].
      rewrite stirling_at_before by done.
      assert (i' = S (Z.to_nat (i - 1)) ∧ j' = 0%nat) as [-> ->] by cells.
      apply stirling2_S_0.
  - intros j t0 Hj Ht0.
    rewrite (expect_get2 m _ _ t0 (i - 1) j Ht0) by (lia || done).
    cbn [bind].
    rewrite (expect_get2 m _ _ t0 (i - 1) (j - 1) Ht0) by (lia || done).
    cbn [bind]. eapply expect_set2; [exact Ht0|lia..|].
    intros i' j' _ _ _. case_decide as Hc.
    + destruct Hc as [-> ->].
      rewrite !stirling_at_before by cells.
      replace (Z.to_nat i) with (S (Z.to_nat (i - 1))) by lia.
      replace (Z.to_nat j) with (S (Z.to_nat (j - 1))) at 1 by lia.
      rewrite stirling2_S_S.
      replace (S (Z.to_nat (j - 1))) with (Z.to_nat j) by lia.
      rewrite Z2Nat.id by lia. done.
    + split; [done|].
      destruct (decide (before i j i' j')) as [Hb|Hb].
      * rewrite !stirling_at_before by cells. done.
      * rewrite !stirling_at_later by cells. done.
  - exists t'. split; [exact Hfor|].
    eapply expect_weaken; [exact Ht'|]. intros i' j' _ _ _. split; [done|].
    destruct (decide (before i (i + 1) i' j')) as [Hb|Hb].
    + rewrite !stirling_at_before by cells. done.
    + rewrite (stirling_at_later i (i + 1)) by done.
      destruct (decide (before (i + 1) 0 i' j')) as [Hb1|Hb1];
        [|by rewrite stirling_at_later].
      rewrite stirling_at_before by done. apply stirling2_above. cells.
Qed.

Lemma stirling_rows (n : Z) t :
  1 ≤ n →
  expect (Z.to_nat (n + 1)) all_cells (stirling_at 1 0) t →
  ∃ t',
    for_ (range 1 (n + 1)) (λ i stirling,
      for_ (range 1 (i + 1)) (λ j stirling,
        a <- get2 stirling (i - 1) j ;;
        b <- get2 stirling (i - 1) (j - 1) ;;
        set2 stirling i j (j * a + b)) stirling) t = Ok t' ∧
    expect (Z.to_nat (n + 1)) all_cells (stirling_at (n + 1) 0) t'.
Proof.
  intros Hn Ht. set (m := Z.to_nat (n + 1)) in *.
  apply (for_range (λ i t, expect m all_cells (stirling_at i 0) t));
    [lia|exact Ht|].
  intros i t0 Hi Ht0. apply stirling_row; [lia|done].
Qed.

(** [bell_number_sum] returns the sum of row [n] of the Stirling numbers. *)
Lemma bell_number_sum_stirling2 (n : Z) :
  0 ≤ n →
  bell_number_sum n = Ok (sumto (Z.to_nat n) (stirling2 (Z.to_nat n))).
Proof.
  intros Hn. unfold bell_number_sum.
  destruct (Z.ltb_spec n 0); [lia|].
  destruct (Z.eqb_spec n 0) as [->|Hn0]; [done|].
  destruct (stirling_base n (zeros n)) as (t0 & -> & Ht0);
    [lia|by apply zeros_expect|].
  cbn [bind].
  destruct (expect_set2 _ all_cells all_cells (λ _ _, 0) (stirling_at 1 0)
              t0 0 0 1 Ht0) as (t1 & -> & Ht1); [lia..| |].
  { intros i' j' _ _ _. case_decide as Hc.
    - destruct Hc as [-> ->]. by rewrite stirling_at_before by cells.
    - split; [done|].
      destruct (decide (before 1 0 i' j')) as [Hb|Hb];
        [|by rewrite stirling_at_later].
      rewrite stirling_at_before by done.
      assert (i' = 0%nat) as -> by cells.
      rewrite stirling2_0. case_decide; [lia|done]. }
  cbn [bind]. destruct (stirling_rows n t1) as (t2 & -> & [Hsq Ht2]);
    [lia|done|].
  cbn [bind].
  destruct (square_lookup _ t2 (Z.to_nat n) Hsq) as (row & Hrow & Hlen);
    [lia|].
  rewrite (getitem_ok t2 n row) by (done || lia). cbn [bind].
  rewrite (sum_row row (Z.to_nat n)) by lia. f_equal.
  apply sumto_ext_upto. intros k Hk.
  rewrite <-(stirling_at_before (n + 1) 0) by cells.
  rewrite <-Ht2 by (done || lia). unfold ent. by rewrite Hrow.
Qed.

(** ** The specified property *)

(** C10. The two implementations of the Bell numbers agree: for every
    non-negative [n], [bell_number(n)], computed with the Bell triangle, and
    [bell_number_sum(n)], the sum of the Stirling numbers of the second kind
    [S(n, k)] for [k] from 0 to [n], return the same number. *)
Theorem bell_number_agree (n : Z) :
  0 ≤ n →
  ∃ b, bell_number n = Ok b ∧ bell_number_sum n = Ok b.
Proof.
  intros Hn. exists (triangle (Z.to_nat n) 0). split.
  - by apply bell_number_triangle.
  - rewrite triangle_stirling2. by apply bell_number_sum_stirling2.
Qed.

Lemma bell_number_agree_witness :
  ∃ b, bell_number 10 = Ok b ∧ bell_number_sum 10 = Ok b.
Proof. apply (bell_number_agree 10). lia. Defined.

(** ** Further properties of the Bell number functions *)

Lemma bell_number_sum_triangle (n : Z) :
  0 ≤ n → bell_number_sum n = Ok (triangle (Z.to_nat n) 0).
Proof.
  intros Hn. rewrite triangle_stirling2. by apply bell_number_sum_stirling2.
Qed.

(** All of [bell_numbers_list(n)], for [n >= 0]. *)
Lemma bell_numbers_list_triangle (n : Z) :
  0 ≤ n →
  bell_numbers_list n =
  Ok ((λ k, triangle k 0) <$> seq 0 (S (Z.to_nat n))).
Proof.
  intros Hn. unfold bell_numbers_list.
  destruct (Z.ltb_spec n 0); [lia|].
  destruct (Z.eqb_spec n 0) as [->|Hn0]; [done|].
  match goal with
  | |- bind (for_ _ ?body _) _ = _ =>
      destruct (for_range
                  (λ i l, l = (λ k, triangle k 0) <$> seq 0 (Z.to_nat i))
                  body 1 (n + 1) [1]) as (l & -> & ->)
  end; [lia|done| |].
  - intros i l Hi ->. rewrite bell_number_triangle by lia. cbn [bind].
    eexists; split; [done|].
    replace (Z.to_nat (i + 1)) with (S (Z.to_nat i)) by lia.
    by rewrite seq_S, fmap_app.
  - cbn [bind]. do 3 f_equal. lia.
Qed.

(** X13. The three functions raise exactly when the argument is not an
    [int] or is negative, and then [ValueError]: for an integer [n >= 0] no
    table access is out of range. *)
Theorem bell_raise_iff (o : object) (e : exn) :
  let bad := isinstance_int o = false ∨ ∃ n, o = Int n ∧ n < 0 in
  (bell_number_of o = Raise e ↔ bad ∧ e = ValueError) ∧
  (bell_number_sum_of o = Raise e ↔ bad ∧ e = ValueError) ∧
  (bell_numbers_list_of o = Raise e ↔ bad ∧ e = ValueError).
Proof.
  unfold bell_number_of, bell_number_sum_of, bell_numbers_list_of.
  destruct o as [n|]; simpl.
  - destruct (Z.ltb_spec n 0) as [Hn|Hn]; simpl.
    + split_and!;
        (split; [intros [= <-]; split; [right; by exists n|done]
                |by intros [_ ->]]).
    + rewrite bell_number_triangle, bell_number_sum_triangle,
        bell_numbers_list_triangle by done.
      split_and!;
        (split; [done|intros [[?|(n' & [= <-] & ?)] _]; [done|lia]]).
  - split_and!;
      (split; [intros [= <-]; split; [by left|done]|by intros [_ ->]]).
Qed.

(** X14. [bell_number] computes the Bell triangle: there is a triangle of
    numbers that starts with 1, whose rows start with the last number of the
    row before, whose other numbers are the sum of the number to the left
    and the number above that one, and [bell_number(n)] is the first number
    of its row [n]. *)
Theorem bell_number_is_triangle :
  ∃ T : nat → nat → Z,
    T 0%nat 0%nat = 1 ∧
    (∀ i, T (S i) 0%nat = T i i) ∧
    (∀ i j, (j ≤ i)%nat → T (S i) (S j) = T i j + T (S i) j) ∧
    ∀ n, 0 ≤ n → bell_number n = Ok (T (Z.to_nat n) 0%nat).
Proof.
  exists triangle. split_and!.
  - apply triangle_0_0.
  - apply triangle_S_0.
  - apply triangle_S_S.
  - apply bell_number_triangle.
Qed.

(** X15. [bell_number_sum] sums the Stirling numbers of the second kind:
    with [S(0,0) = 1], [S(0,j) = 0] and [S(i,0) = 0] otherwise, and
    [S(i,j) = j * S(i-1,j) + S(i-1,j-1)], it returns
    [S(n,0) + ... + S(n,n)]. *)
Theorem bell_number_sum_is_stirling :
  ∃ S2 : nat → nat → Z,
    S2 0%nat 0%nat = 1 ∧
    (∀ j, S2 0%nat (S j) = 0) ∧
    (∀ i, S2 (S i) 0%nat = 0) ∧
    (∀ i j, S2 (S i) (S j) = Z.of_nat (S j) * S2 i (S j) + S2 i j) ∧
    ∀ n, 0 ≤ n →
      bell_number_sum n = Ok (sumto (Z.to_nat n) (S2 (Z.to_nat n))).
Proof.
  exists stirling2. split_and!.
  - done.
  - done.
  - apply stirling2_S_0.
  - apply stirling2_S_S.
  - apply bell_number_sum_stirling2.
Qed.

(** X16. [bell_numbers_list(n)] has [n + 1] entries and its entry [i] is
    [bell_number(i)], for every [i] from 0 to [n]. *)
Theorem bell_numbers_list_entries (n : Z) :
  0 ≤ n →
  ∃ l,
    bell_numbers_list n = Ok l ∧
    length l = Z.to_nat (n + 1) ∧
    ∀ i, 0 ≤ i ≤ n →
      ∃ b, bell_number i = Ok b ∧ l !! Z.to_nat i = Some b.
Proof.
  intros Hn. eexists. split; [by apply bell_numbers_list_triangle|].
  split.
  - rewrite length_fmap, length_seq. lia.
  - intros i Hi. exists (triangle (Z.to_nat i) 0).
    split; [apply bell_number_triangle; lia|].
    rewrite list_lookup_fmap, lookup_seq_lt by lia. done.
Qed.

Lemma bell_numbers_list_entries_witness :
  ∃ l,
    bell_numbers_list 7 = Ok l ∧
    length l = Z.to_nat (7 + 1) ∧
    ∀ i, 0 ≤ i ≤ 7 →
      ∃ b, bell_number i = Ok b ∧ l !! Z.to_nat i = Some b.
Proof. apply (bell_numbers_list_entries 7). lia. Defined.

(** X17. A longer list extends a shorter one: [bell_numbers_list(n + 1)] is
    [bell_numbers_list(n)] followed by [bell_number(n + 1)]. *)
Theorem bell_numbers_list_extends (n : Z) :
  0 ≤ n →
  ∃ l b,
    bell_numbers_list n = Ok l ∧
    bell_number (n + 1) = Ok b ∧
    bell_numbers_list (n + 1) = Ok (l ++ [b]).
Proof.
  intros Hn. eexists _, _.
  rewrite !bell_numbers_list_triangle, bell_number_triangle by lia.
  split_and!; [done..|].
  replace (Z.to_nat (n + 1)) with (S (Z.to_nat n)) by lia.
  by rewrite (seq_S (S (Z.to_nat n))), fmap_app.
Qed.

Lemma bell_numbers_list_extends_witness :
  ∃ l b,
    bell_numbers_list 5 = Ok l ∧
    bell_number (5 + 1) = Ok b ∧
    bell_numbers_list (5 + 1) = Ok (l ++ [b]).
Proof. apply (bell_numbers_list_extends 5). lia. Defined.

(** ** Size and growth of the Bell numbers *)

Lemma triangle_row i :
  ∀ j, (j ≤ i)%nat → 1 ≤ triangle i 0 ≤ triangle i j ∧
                      ((1 ≤ j)%nat → triangle i 0 < triangle i j).
Proof.
  induction i as [|i IH].
  - intros j Hj. assert (j = 0%nat) as -> by lia.
    rewrite triangle_0_0. split; [lia|]. intros ?; lia.
  - assert (1 ≤ triangle (S i) 0) as H0.
    { rewrite triangle_S_0. destruct (IH i) as [? _]; lia. }
    induction j as [|j IHj]; intros Hj.
    + split; [lia|]. intros ?; lia.
    + rewrite triangle_S_S by lia.
      destruct (IH j) as [? _]; [lia|]. destruct IHj as [? _]; [lia|].
      split; [lia|]. intros _. lia.
Qed.

(** X18. The Bell numbers are positive and never decrease, and from
    [bell_number(1)] on they increase strictly. *)
Theorem bell_number_grows (n : Z) :
  0 ≤ n →
  ∃ b b',
    bell_number n = Ok b ∧ bell_number (n + 1) = Ok b' ∧
    1 ≤ b ≤ b' ∧ (1 ≤ n → b < b').
Proof.
  intros Hn. eexists _, _. rewrite !bell_number_triangle by lia.
  split; [done|]. split; [done|]. split.
  - replace (Z.to_nat (n + 1)) with (S (Z.to_nat n)) by lia.
    rewrite triangle_S_0.
    destruct (triangle_row (Z.to_nat n) (Z.to_nat n)) as [? _]; lia.
  - intros Hn1. replace (Z.to_nat (n + 1)) with (S (Z.to_nat n)) by lia.
    rewrite triangle_S_0.
    destruct (triangle_row (Z.to_nat n) (Z.to_nat n)) as [_ Hlt]; [lia|].
    apply Hlt. lia.
Qed.

Lemma bell_number_grows_witness :
  ∃ b b',
    bell_number 4 = Ok b ∧ bell_number (4 + 1) = Ok b' ∧
    1 ≤ b ≤ b' ∧ (1 ≤ 4 → b < b').
Proof. apply (bell_number_grows 4). lia. Defined.

(** ** The recurrence of the Bell numbers *)

Lemma binom_0 n : binom n 0 = 1.
Proof. by destruct n. Qed.

Lemma binom_above n : ∀ k, (n < k)%nat → binom n k = 0.
Proof.
  induction n as [|n IH]; intros [|k] Hk; simpl; [lia|done|lia|].
  rewrite !IH by lia. done.
Qed.

Lemma sumto_shift n c : sumto (S n) c = c 0%nat + sumto n (λ k, c (S k)).
Proof.
  induction n as [|n IH]; [done|].
  change (sumto (S (S n)) c) with (sumto (S n) c + c (S (S n))).
  rewrite IH. simpl. lia.
Qed.

(** Pascal's rule under a sum. *)
Lemma sumto_pascal j (a : nat → Z) :
  sumto (S j) (λ k, binom (S j) k * a k) =
  sumto j (λ k, binom j k * a k) + sumto j (λ k, binom j k * a (S k)).
Proof.
  rewrite sumto_shift.
  rewrite (sumto_ext j _ (λ k, binom j k * a (S k) + binom j (S k) * a (S k)))
    by (intros k; simpl; lia).
  rewrite sumto_add.
  assert (sumto j (λ k, binom j k * a k) =
          a 0%nat + sumto j (λ k, binom j (S k) * a (S k))) as ->.
  { transitivity (sumto (S j) (λ k, binom j k * a k)).
    - simpl. rewrite binom_above by lia. lia.
    - rewrite sumto_shift, binom_0. lia. }
  simpl. lia.
Qed.

(** Every entry of the triangle is a binomial sum of first entries. *)
Lemma triangle_binom j :
  ∀ i, (j ≤ i)%nat →
    triangle i j = sumto j (λ k, binom j k * triangle (i - j + k) 0).
Proof.
  induction j as [|j IH]; intros i Hi.
  - simpl. rewrite Nat.sub_0_r, Nat.add_0_r. lia.
  - destruct i as [|i]; [lia|]. rewrite triangle_S_S by lia.
    rewrite (IH i), (IH (S i)) by lia.
    pose proof (sumto_pascal j (λ k, triangle (i - j + k) 0)) as Hp.
    cbv beta in Hp. change (S i - S j)%nat with (i - j)%nat. rewrite Hp.
    f_equal. apply sumto_ext. intros k. do 2 f_equal. lia.
Qed.

(** X19. [bell_number] satisfies the recurrence of the Bell numbers:
    [B(0) = 1] and [B(n + 1)] is the sum of [binom(n, k) * B(k)] for [k]
    from 0 to [n]. *)
Theorem bell_number_recurrence :
  ∃ B : nat → Z,
    (∀ n : nat, bell_number (Z.of_nat n) = Ok (B n)) ∧
    B 0%nat = 1 ∧
    ∀ n, B (S n) = sumto n (λ k, binom n k * B k).
Proof.
  exists (λ n, triangle n 0). split_and!.
  - intros n. rewrite bell_number_triangle by lia. by rewrite Nat2Z.id.
  - apply triangle_0_0.
  - intros n. rewrite triangle_S_0, (triangle_binom n n) by lia.
    apply sumto_ext. intros k. by rewrite Nat.sub_diag.
Qed.

End BellNumbersProofs.
